(** * speech2speech: the conversation and voice-provisioning handlers

    A shallow embedding of [gradio_demo.py]: the two button handlers
    [conversation] and [make_voices], the asynchronous helper
    [play_history], and the Python string operations they rely on.

    Conventions.
    - A Python [str] is represented by its UTF-8 encoding, held in a Rocq
      [string]; the source only tests emptiness, searches and splits on
      [":"], splits lines and concatenates, all of which commute with the
      encoding.
    - Exceptions are values of [exn]; a computation that may raise returns
      [res].
    - What the file imports and calls ([elevenlabs], [openailib], [tube],
      [yaml], [soundfile], [sounddevice]) is taken as a parameter: the
      fields of the class [Backend], state-passing functions over an
      abstract [World]. *)

From Stdlib Require Import String Ascii List ZArith Lia DecimalString DecimalNat.
From stdpp Require Import base option list gmap strings fin_maps.

Local Open Scope string_scope.
Local Open Scope list_scope.

(** ** Python strings *)

Module PyStr.

(** [not s] fails exactly for the empty string. *)
Definition truthy (s : string) : bool :=
  match s with
  | EmptyString => false
  | String _ _ => true
  end.

(** [sep in s] for a one-character separator. *)
Fixpoint contains (sep : ascii) (s : string) : bool :=
  match s with
  | EmptyString => false
  | String c rest => if Ascii.eqb c sep then true else contains sep rest
  end.

(** Number of occurrences of a character. *)
Fixpoint count (sep : ascii) (s : string) : nat :=
  match s with
  | EmptyString => 0
  | String c rest => (if Ascii.eqb c sep then 1 else 0) + count sep rest
  end.

(** [s.split(sep)] for a one-character separator: every occurrence
    splits, empty fields are kept. *)
Fixpoint split (sep : ascii) (s : string) : list string :=
  match s with
  | EmptyString => [EmptyString]
  | String c rest =>
      if Ascii.eqb c sep then EmptyString :: split sep rest
      else match split sep rest with
           | field :: fields => String c field :: fields
           | [] => [String c EmptyString]
           end
  end.

(** One-byte line boundaries of [str.splitlines]: LF, VT, FF, CR, FS,
    GS, RS. *)
Definition is_break (c : ascii) : bool :=
  let n := nat_of_ascii c in
  (n =? 10)%nat || (n =? 11)%nat || (n =? 12)%nat || (n =? 13)%nat
  || (n =? 28)%nat || (n =? 29)%nat || (n =? 30)%nat.

Definition snoc (s : string) (c : ascii) : string :=
  s +:+ String c EmptyString.

(** [splitlines_from cur s]: the lines of [s], the first one prefixed by
    the pending characters [cur].  CR LF counts once; NEL (U+0085) and
    the separators U+2028 and U+2029 are recognised in their UTF-8
    form. *)
Fixpoint splitlines_from (cur : string) (s : string) : list string :=
  match s with
  | EmptyString => if truthy cur then [cur] else []
  | String c rest =>
      match nat_of_ascii c, rest with
      | 13, String c' rest' =>
          if (nat_of_ascii c' =? 10)%nat
          then cur :: splitlines_from EmptyString rest'
          else cur :: splitlines_from EmptyString rest
      | 194, String c' rest' =>
          if (nat_of_ascii c' =? 133)%nat
          then cur :: splitlines_from EmptyString rest'
          else splitlines_from (snoc cur c) rest
      | 226, String c1 (String c2 rest') =>
          if (nat_of_ascii c1 =? 128)%nat
             && ((nat_of_ascii c2 =? 168)%nat || (nat_of_ascii c2 =? 169)%nat)
          then cur :: splitlines_from EmptyString rest'
          else splitlines_from (snoc cur c) rest
      | _, _ =>
          if is_break c then cur :: splitlines_from EmptyString rest
          else splitlines_from (snoc cur c) rest
      end
  end.

Definition splitlines (s : string) : list string :=
  splitlines_from EmptyString s.

(** [''.join(parts)]. *)
Definition join (parts : list string) : string :=
  fold_right String.append EmptyString parts.

(** The line feed, as Python's "\n". *)
Definition LF : string := String (ascii_of_nat 10) EmptyString.

(** [str(i)] for a non-negative integer. *)
Definition of_nat (i : nat) : string :=
  NilZero.string_of_uint (Nat.to_uint i).

End PyStr.

(** ** Exceptions and results *)

(** The exception classes the handlers can meet.  Collaborators may raise
    anything, so their failures live in the same type. *)
Inductive exn : Type :=
| AssertionError (msg : string)
| ValueError (msg : string)
| KeyError (key : string)
| AttributeError (msg : string)
| InvalidStateError (msg : string)
| OtherError (cls msg : string).

Inductive res (A : Type) : Type :=
| Ok (a : A)
| Raise (e : exn).

Arguments Ok {A} a.
Arguments Raise {A} e.

Definition res_bind {A B} (r : res A) (k : A -> res B) : res B :=
  match r with
  | Ok a => k a
  | Raise e => Raise e
  end.

Declare Scope res_scope.
Delimit Scope res_scope with res.
Notation "x <-? c ;; k" := (res_bind c (fun x => k))
  (at level 100, c at next level, right associativity) : res_scope.

(** [assert cond, msg]. *)
Definition assert (cond : bool) (msg : string) : res unit :=
  if cond then Ok tt else Raise (AssertionError msg).

(** [a, b = parts]. *)
Definition unpack2 (parts : list string) : res (string * string) :=
  match parts with
  | [a; b] => Ok (a, b)
  | _ :: _ :: _ :: _ =>
      Raise (ValueError "too many values to unpack (expected 2)")
  | _ =>
      Raise (ValueError
               ("not enough values to unpack (expected 2, got "
                  +:+ PyStr.of_nat (length parts) +:+ ")"))
  end.

(** [x in xs] on a list of strings. *)
Definition str_in (x : string) (xs : list string) : bool :=
  existsb (String.eqb x) xs.

(** ** Values loaded by [yaml.safe_load] *)

#[local] Set Warnings "-register-all".

Inductive yaml : Type :=
| YNone
| YBool (b : bool)
| YInt (z : Z)
| YFloat (repr : string)
| YStr (s : string)
| YList (items : list yaml)
| YDict (items : list (yaml * yaml))
| YOther (type_name repr : string).

Definition type_name_of (v : yaml) : string :=
  match v with
  | YNone => "NoneType"
  | YBool _ => "bool"
  | YInt _ => "int"
  | YFloat _ => "float"
  | YStr _ => "str"
  | YList _ => "list"
  | YDict _ => "dict"
  | YOther t _ => t
  end.

(** [key == s] for a string [s]: only a string key can be equal to it. *)
Definition key_is (s : string) (key : yaml) : bool :=
  match key with
  | YStr k => String.eqb k s
  | _ => false
  end.

(** [d.get(key, default)] on the items of a dict. *)
Definition dict_get (items : list (yaml * yaml)) (key : string) (default : yaml) : yaml :=
  match find (fun kv => key_is key (fst kv)) items with
  | Some kv => snd kv
  | None => default
  end.

(** [key in d]. *)
Definition dict_has (items : list (yaml * yaml)) (key : string) : bool :=
  existsb (fun kv => key_is key (fst kv)) items.

(** [d[key]]. *)
Definition dict_getitem (items : list (yaml * yaml)) (key : string) : res yaml :=
  match find (fun kv => key_is key (fst kv)) items with
  | Some kv => Ok (snd kv)
  | None => Raise (KeyError key)
  end.

(** ** The collaborators *)

(** Everything [gradio_demo.py] imports and calls.  Each call may change the
    outside world and may raise.
    - [check_voice_exists]: the source compares its answer with [None]
      (line 69) and tests its truth (line 113); an answer is [None] or a
      voice handle, and a handle is true.
    - [format_value]: how Python renders a non-string value inside an
      f-string. *)
Class Backend : Type := {
  World : Type;
  Voice : Type;
  Audio : Type;
  Number : Type;
  Path : Type;
  SoundFile : Type;
  Samples : Type;
  check_voice_exists : string -> World -> res (option Voice) * World;
  get_make_voice : string -> option (list Path) -> World -> res Voice * World;
  text_to_speechbytes : string -> Voice -> World -> res (list Byte.byte) * World;
  speech_to_text : Audio -> World -> res string * World;
  fake_conversation :
    list string -> string -> string -> string -> Number -> Number ->
    World -> res string * World;
  extract_audio : yaml -> string -> yaml -> yaml -> World -> res Path * World;
  yaml_safe_load : string -> res yaml;
  sf_SoundFile : list Byte.byte -> World -> res SoundFile * World;
  sf_read : SoundFile -> World -> res Samples * World;
  sf_samplerate : SoundFile -> Number;
  sd_play : Samples -> Number -> World -> res unit * World;
  format_value : yaml -> string
}.

(** [COLORS], line 33. *)
Definition COLORS : list string :=
  ["#FFA07A"; "#F08080"; "#AFEEEE"; "#B0E0E6"; "#DDA0DD";
   "#FFFFE0"; "#F0E68C"; "#90EE90"; "#87CEFA"; "#FFB6C1"].

(** ** Runs *)

Section Runs.

Context `{B : Backend}.

(** What a run does that the outside can see, in order. *)
Inductive Event : Type :=
| Ev_check_voice_exists (name : string)
| Ev_get_make_voice (name : string) (audio_path : option (list Path))
| Ev_speech_to_text (audio : Audio)
| Ev_fake_conversation (names : list string) (iam request model : string)
    (max_tokens temperature : Number)
| Ev_extract_audio (url : yaml) (label : string) (start_minute duration : yaml)
| Ev_submit (index : nat) (text : string) (v : Voice)
| Ev_done (index : nat) (result : res (list Byte.byte))
| Ev_SoundFile (speech_bytes : list Byte.byte)
| Ev_read (soundFile : SoundFile)
| Ev_play (data : Samples) (samplerate : Number)
| Ev_warning (e : exn)
| Ev_raised (e : exn).

Record Run (A : Type) : Type := {
  outcome : res A;
  final : World;
  trace : list Event
}.

Arguments outcome {A} _.
Arguments final {A} _.
Arguments trace {A} _.

Definition M (A : Type) : Type := World -> Run A.

Definition ret {A} (a : A) : M A :=
  fun w => {| outcome := Ok a; final := w; trace := [] |}.

Definition raise {A} (e : exn) : M A :=
  fun w => {| outcome := Raise e; final := w; trace := [] |}.

Definition bind {A C} (m : M A) (k : A -> M C) : M C :=
  fun w =>
    let r := m w in
    match outcome r with
    | Ok a =>
        let r' := k a (final r) in
        {| outcome := outcome r'; final := final r';
           trace := trace r ++ trace r' |}
    | Raise e => {| outcome := Raise e; final := final r; trace := trace r |}
    end.

Definition lift {A} (r : res A) : M A :=
  match r with
  | Ok a => ret a
  | Raise e => raise e
  end.

Definition emit (ev : Event) : M unit :=
  fun w => {| outcome := Ok tt; final := w; trace := [ev] |}.

(** A collaborator call: the event, the collaborator's own step, and its
    exception when it raises one. *)
Definition call {A} (ev : Event) (f : World -> res A * World) : M A :=
  fun w =>
    let '(r, w') := f w in
    {| outcome := r; final := w';
       trace := ev :: match r with
                      | Ok _ => []
                      | Raise e => [Ev_raised e]
                      end |}.

(** [try: body except Exception as e: handler(e)]. *)
Definition try_except {A} (body : M A) (handler : exn -> M A) : M A :=
  fun w =>
    let r := body w in
    match outcome r with
    | Ok a => r
    | Raise e =>
        let r' := handler e (final r) in
        {| outcome := outcome r'; final := final r';
           trace := trace r ++ trace r' |}
    end.

End Runs.

Arguments outcome {B A} _.
Arguments final {B A} _.
Arguments trace {B A} _.

Declare Scope run_scope.
Delimit Scope run_scope with run.
Notation "x <- c ;; k" := (bind c (fun x => k))
  (at level 100, c at next level, right associativity) : run_scope.

(** ** The handlers *)

Section Handlers.

Context `{B : Backend}.

(** [NAMES], line 30: the keys of [voices.yaml]. *)
Variable NAMES : list string.

Local Open Scope run_scope.

(** [class Speaker], lines 36-45. *)
Record Speaker : Type := {
  name : string;
  voice : Voice;
  color : string
}.

(** [x is not None], and the truth of a collaborator's answer. *)
Definition is_not_None {A} (x : option A) : bool :=
  match x with
  | Some _ => true
  | None => false
  end.

(** [d[key]] on the [speakers] dict. *)
Definition getitem (speakers : gmap string Speaker) (key : string) : res Speaker :=
  match speakers !! key with
  | Some sp => Ok sp
  | None => Raise (KeyError key)
  end.

(** *** The transcript loop, lines 86-102 *)

(** The f-string of lines 80 and 98. *)
Definition bubble (color text : string) : string :=
  "<div style='background-color: " +:+ color
    +:+ "; border-radius: 5px; padding: 5px; margin: 5px;'>"
    +:+ text +:+ "</div>".

(** The body of the [try], lines 89-97: [Ok None] is the [continue] of an
    empty line, [Ok (Some entry)] reaches [history.append]. *)
Definition line_body (speakers : gmap string Speaker) (line : string)
  : res (option (Speaker * string)) :=
  if negb (PyStr.truthy line) then Ok None
  else
    (_ <-? assert (PyStr.contains ":" line)
             ("Line " +:+ line +:+ " does not have a colon") ;;
     parts <-? unpack2 (PyStr.split ":" line) ;;
     let name := fst parts in
     let text := snd parts in
     _ <-? assert (str_in name NAMES)
             ("Name " +:+ name +:+ " is not in "
                +:+ format_value (YList (map YStr NAMES))) ;;
     speaker <-? getitem speakers name ;;
     _ <-? assert (0 <? String.length text)%nat
             ("Text " +:+ text +:+ " is empty") ;;
     Ok (Some (speaker, text)))%res.

(** The [for] loop with its [except AssertionError] handler. *)
Fixpoint history_loop (speakers : gmap string Speaker) (lines : list string)
    (history : list (Speaker * string)) (history_html : list string)
  : M (list (Speaker * string) * list string) :=
  match lines with
  | [] => ret (history, history_html)
  | line :: lines' =>
      match line_body speakers line with
      | Ok None => history_loop speakers lines' history history_html
      | Ok (Some (speaker, text)) =>
          history_loop speakers lines'
            (history ++ [(speaker, text)])
            (history_html ++ [bubble (color speaker) text])
      | Raise (AssertionError msg) =>
          _ <- emit (Ev_warning (AssertionError msg)) ;;
          history_loop speakers lines' history history_html
      | Raise e => raise e
      end
  end.

(** *** Building the speakers, lines 67-75 *)

(** [COLORS[i % len(COLORS)]]. *)
Definition color_of (i : nat) : string :=
  default EmptyString (COLORS !! (i mod length COLORS)).

(** The loop over [enumerate(names)], started at index [i]. *)
Fixpoint speakers_loop (i : nat) (names : list string)
    (speakers : gmap string Speaker) : M (gmap string Speaker) :=
  match names with
  | [] => ret speakers
  | name :: names' =>
      found <- call (Ev_check_voice_exists name) (check_voice_exists name) ;;
      _ <- lift (assert (is_not_None found)
                   ("Voice " +:+ name +:+ " does not exist")) ;;
      v <- call (Ev_get_make_voice name None) (get_make_voice name None) ;;
      speakers_loop (S i) names'
        (<[name := {| name := name; voice := v; color := color_of i |}]> speakers)
  end.

(** *** Speech synthesis and playback, lines 47-63 *)

(** A task of [asyncio.gather]: its position and its history entry. *)
Definition task : Type := nat * (Speaker * string).

(** The tasks of line 57, each with its position in the list, counted
    from [i]. *)
Fixpoint enumerate {A} (i : nat) (l : list A) : list (nat * A) :=
  match l with
  | [] => []
  | x :: l' => (i, x) :: enumerate (S i) l'
  end.

(** A child future of the gather: pending, or done with a result. *)
Definition future : Type := option (res (list Byte.byte)).

(** The first step of every task, in creation order: the request is handed
    to a worker by [loop.run_in_executor] (line 49). *)
Fixpoint submit_all (tasks : list task) : M unit :=
  match tasks with
  | [] => ret tt
  | (i, (speaker, text)) :: tasks' =>
      _ <- emit (Ev_submit i text (voice speaker)) ;;
      submit_all tasks'
  end.

Definition insert_at {A} (k : nat) (x : A) (l : list A) : list A :=
  take k l ++ x :: drop k l.

(** The order in which the workers finish is not fixed by the program.
    [sched] chooses it: task [i] finishes after [sched !! i] of the tasks
    created after it (after all of them when the number is too large, and
    before all of them when [sched] is too short).  Every order of
    completion is obtained for some [sched]. *)
Fixpoint completion_order {A} (sched : list nat) (tasks : list A) : list A :=
  match tasks with
  | [] => []
  | t :: tasks' =>
      insert_at (hd 0 sched) t (completion_order (tl sched) tasks')
  end.

(** Lines 47-50, from the moment the worker returns:
    [text_to_speechbytes(text, speaker.voice)] has run in its pool.  Its
    exception, if any, is kept in the future of the task, not raised
    here. *)
Definition text_to_speechbytes_async (t : task) : M (res (list Byte.byte)) :=
  fun w =>
    let '(i, (speaker, text)) := t in
    let '(r, w') := text_to_speechbytes text (voice speaker) w in
    {| outcome := Ok r; final := w'; trace := [Ev_done i r] |}.

Definition first_exception (first : option exn) (r : res (list Byte.byte))
  : option exn :=
  match first, r with
  | None, Raise e => Some e
  | _, _ => first
  end.

(** The workers finish in the given order, each resolving its future.
    Every worker runs to its end: each has its own pool, so each call has
    started when it was submitted, and leaving the [with] block of line 48
    waits for it.  The gather keeps the first exception. *)
Fixpoint run_workers (order : list task) (children : list future)
    (first : option exn) : M (list future * option exn) :=
  match order with
  | [] => ret (children, first)
  | t :: order' =>
      r <- text_to_speechbytes_async t ;;
      run_workers order' (<[fst t := Some r]> children)
        (first_exception first r)
  end.

(** [fut.result()]. *)
Definition result (fut : future) : res (list Byte.byte) :=
  match fut with
  | Some r => r
  | None => Raise (InvalidStateError "Result is not ready.")
  end.

Fixpoint results (children : list future) : res (list (list Byte.byte)) :=
  match children with
  | [] => Ok []
  | fut :: children' =>
      (b <-? result fut ;;
       bs <-? results children' ;;
       Ok (b :: bs))%res
  end.

(** [await asyncio.gather] over the tasks, line 60: the results in the
    order of the tasks, or the first exception. *)
Definition gather (sched : list nat) (tasks : list task)
  : M (list (list Byte.byte)) :=
  _ <- submit_all tasks ;;
  st <- run_workers (completion_order sched tasks)
          (replicate (length tasks) None) None ;;
  match snd st with
  | Some e => raise e
  | None => lift (results (fst st))
  end.

(** The body of the [for] of lines 60-63. *)
Fixpoint play_loop (clips : list (list Byte.byte)) : M unit :=
  match clips with
  | [] => ret tt
  | speech_bytes :: clips' =>
      soundFile <- call (Ev_SoundFile speech_bytes) (sf_SoundFile speech_bytes) ;;
      data <- call (Ev_read soundFile) (sf_read soundFile) ;;
      _ <- call (Ev_play data (sf_samplerate soundFile))
             (sd_play data (sf_samplerate soundFile)) ;;
      play_loop clips'
  end.

(** [play_history], lines 53-63, run to its end by [asyncio.run]. *)
Definition play_history (sched : list nat) (history : list (Speaker * string))
  : M unit :=
  clips <- gather sched (enumerate 0 history) ;;
  play_loop clips.

(** *** [conversation], lines 65-104 *)

(** [sched] is not an argument of the source: it stands for the order in
    which the synthesis workers happen to finish during this call. *)
Definition conversation (sched : list nat)
    (names : list string) (iam : string) (audio : Audio) (model : string)
    (max_tokens temperature timeout samplerate channels : Number)
  : M string :=
  _ <- lift (assert (str_in iam names)
               ("I am " +:+ iam +:+ " but I don't have a voice")) ;;
  speakers <- speakers_loop 0 names ∅ ;;
  request <- call (Ev_speech_to_text audio) (speech_to_text audio) ;;
  me <- lift (getitem speakers iam) ;;
  let history_html := [bubble (color me) request] in
  response <- call (Ev_fake_conversation names iam request model
                      max_tokens temperature)
                (fake_conversation names iam request model
                   max_tokens temperature) ;;
  built <- history_loop speakers (PyStr.splitlines response) [] history_html ;;
  _ <- play_history sched (fst built) ;;
  ret (PyStr.join (snd built)).

(** *** [make_voices], lines 107-129 *)

(** The loop over [enumerate(videos)], lines 116-124, started at [i]. *)
Fixpoint videos_loop (name : string) (i : nat) (videos : list yaml)
    (audio_paths : list Path) : M (list Path) :=
  match videos with
  | [] => ret audio_paths
  | video :: videos' =>
      match video with
      | YDict items =>
          _ <- lift (assert (dict_has items "url")
                       ("Video " +:+ format_value video
                          +:+ " does not have a url")) ;;
          url <- lift (dict_getitem items "url") ;;
          let start_minute := dict_get items "start_minute" (YInt 0) in
          let duration := dict_get items "duration" (YInt 120) in
          let label := "audio." +:+ name +:+ "." +:+ PyStr.of_nat i in
          output_path <- call (Ev_extract_audio url label start_minute duration)
                           (extract_audio url label start_minute duration) ;;
          videos_loop name (S i) videos' (audio_paths ++ [output_path])
      | _ =>
          raise (AssertionError
                   ("Video " +:+ format_value video +:+ " is not a dict"))
      end
  end.

(** The loop over [voice_dict.items()], lines 110-125. *)
Fixpoint voices_loop (items : list (yaml * yaml)) : M unit :=
  match items with
  | [] => ret tt
  | (name, videos) :: items' =>
      match name, videos with
      | YStr name, YList videos =>
          found <- call (Ev_check_voice_exists name) (check_voice_exists name) ;;
          if is_not_None found then voices_loop items'
          else
            audio_paths <- videos_loop name 0 videos [] ;;
            _ <- call (Ev_get_make_voice name (Some audio_paths))
                   (get_make_voice name (Some audio_paths)) ;;
            voices_loop items'
      | YStr _, _ =>
          raise (AssertionError
                   ("Videos " +:+ format_value videos +:+ " is not a list"))
      | _, _ =>
          raise (AssertionError
                   ("Name " +:+ format_value name +:+ " is not a string"))
      end
  end.

(** The body of the [try], lines 109-125. *)
Definition make_voices_body (voices_yaml : string) : M unit :=
  voice_dict <- lift (yaml_safe_load voices_yaml) ;;
  match voice_dict with
  | YDict items => voices_loop items
  | other =>
      raise (AttributeError
               ("'" +:+ type_name_of other
                  +:+ "' object has no attribute 'items'"))
  end.

Definition make_voices (voices_yaml : string) : M string :=
  _ <- try_except (make_voices_body voices_yaml) (fun e => raise e) ;;
  ret "Success".

End Handlers.

Arguments name {B} _.
Arguments voice {B} _.
Arguments color {B} _.

(** ** Reading a trace *)

Section Traces.

Context `{B : Backend}.

(** The synthesis requests handed to workers: position, text, voice. *)
Definition requests (tr : list Event) : list (nat * string * Voice) :=
  omap (fun ev => match ev with
                  | Ev_submit i text v => Some (i, text, v)
                  | _ => None
                  end) tr.

(** The synthesis requests that finished, in the order they finished. *)
Definition completions (tr : list Event) : list (nat * res (list Byte.byte)) :=
  omap (fun ev => match ev with
                  | Ev_done i r => Some (i, r)
                  | _ => None
                  end) tr.

(** The exceptions of the synthesis workers, in the order they finished. *)
Definition failed_synthesis (tr : list Event) : list exn :=
  omap (fun ev => match ev with
                  | Ev_done _ (Raise e) => Some e
                  | _ => None
                  end) tr.

(** The calls of [sd.play]. *)
Definition played (tr : list Event) : list (Samples * Number) :=
  omap (fun ev => match ev with
                  | Ev_play data rate => Some (data, rate)
                  | _ => None
                  end) tr.

(** The exceptions raised by collaborators called directly. *)
Definition raised (tr : list Event) : list exn :=
  omap (fun ev => match ev with
                  | Ev_raised e => Some e
                  | _ => None
                  end) tr.

Definition is_synthesis (ev : Event) : bool :=
  match ev with
  | Ev_submit _ _ _ | Ev_done _ _ => true
  | _ => false
  end.

(** The events of the setup loop: lookups, and a collaborator's
    exception. *)
Definition is_setup (ev : Event) : bool :=
  match ev with
  | Ev_check_voice_exists _ | Ev_get_make_voice _ _ | Ev_raised _ => true
  | _ => false
  end.

Definition is_warning (ev : Event) : bool :=
  match ev with
  | Ev_warning _ => true
  | _ => false
  end.

(** The futures after the given completions. *)
Definition fill (children : list (option (res (list Byte.byte))))
    (done : list (nat * res (list Byte.byte)))
  : list (option (res (list Byte.byte))) :=
  foldl (fun ch c => <[fst c := Some (snd c)]> ch) children done.

(** The request event of a task. *)
Definition submit_event (t : nat * (Speaker * string)) : Event :=
  Ev_submit (fst t) (snd (snd t)) (voice (fst (snd t))).


(** Provisioning events for the persona [nm]: a registration under its
    name, or an extraction labelled for it. *)
Definition provisions (nm : string) (ev : Event) : Prop :=
  match ev with
  | Ev_get_make_voice n _ => n = nm
  | Ev_extract_audio _ label _ _ =>
      exists i, label = "audio." +:+ nm +:+ "." +:+ PyStr.of_nat i
  | _ => False
  end.

(** Registration or extraction for any persona. *)
Definition is_provisioning (ev : Event) : bool :=
  match ev with
  | Ev_get_make_voice _ _ | Ev_extract_audio _ _ _ _ => true
  | _ => false
  end.

(** The voice of [nm] exists in the world [w]: the lookup finds it. *)
Definition provisioned (nm : string) (w : World) : Prop :=
  exists v w', check_voice_exists nm w = (Ok (Some v), w').

(** The collaborators [make_voices] calls never remove a voice. *)
Definition keeps_voices : Prop :=
  forall nm w, provisioned nm w ->
    (forall n, provisioned nm (snd (check_voice_exists n w)))
    /\ (forall n paths, provisioned nm (snd (get_make_voice n paths w)))
    /\ (forall url label start_minute duration,
          provisioned nm (snd (extract_audio url label start_minute duration w))).

(** Every failure seen in the trace of a run is accounted for by its
    outcome: a run that returns met none; a run that raises [e] met none
    (the exception is its own), or one collaborator called directly that
    raised [e], or synthesis workers of which the first to fail raised
    [e]. *)
Definition accounted {A} (r : Run A) : Prop :=
  match outcome r with
  | Ok _ => raised (trace r) = [] /\ failed_synthesis (trace r) = []
  | Raise e =>
      (raised (trace r) = [] /\ failed_synthesis (trace r) = [])
      \/ (raised (trace r) = [e] /\ failed_synthesis (trace r) = [])
      \/ (raised (trace r) = [] /\ head (failed_synthesis (trace r)) = Some e)
  end.

(** An event that reports no failure. *)
Definition quiet (ev : Event) : Prop :=
  raised [ev] = [] /\ failed_synthesis [ev] = [].

(** A registry entry that is well formed and already provisioned. *)
Definition ready (w : World) (kv : yaml * yaml) : Prop :=
  exists n videos, kv = (YStr n, YList videos) /\ provisioned n w.

End Traces.

(** ** The line rule of the specification *)

Section LineRule.

Context `{B : Backend}.
Variable NAMES : list string.

(** [cut sep s]: what stands before and after the first [sep] of [s]. *)
Fixpoint cut (sep : ascii) (s : string) : option (string * string) :=
  match s with
  | EmptyString => None
  | String c rest =>
      if Ascii.eqb c sep then Some (EmptyString, rest)
      else match cut sep rest with
           | Some (before, after) => Some (String c before, after)
           | None => None
           end
  end.

(** Follows the specification: a line is valid iff it is non-empty, has a
    [name:text] delimiter, its name is a known persona, and its text is
    non-empty. *)
Definition spec_valid_line (line : string) : bool :=
  PyStr.truthy line
  && match cut ":" line with
     | Some (nm, text) => str_in nm NAMES && PyStr.truthy text
     | None => false
     end.

(** The entry a valid line stands for. *)
Definition spec_entry (speakers : gmap string Speaker) (line : string)
  : option (Speaker * string) :=
  if spec_valid_line line then
    match cut ":" line with
    | Some (nm, text) =>
        match speakers !! nm with
        | Some sp => Some (sp, text)
        | None => None
        end
    | None => None
    end
  else None.

(** A known speaker named by the line has been built. *)
Definition speaker_active (speakers : gmap string Speaker) (line : string) : Prop :=
  forall nm text, cut ":" line = Some (nm, text) ->
    str_in nm NAMES = true -> is_Some (speakers !! nm).

(** The rule as the specification words it, for one line handed to the
    loop: kept iff valid, otherwise skipped with a warning, never an
    exception. *)
Definition line_rule_as_specified (speakers : gmap string Speaker)
    (line : string) (w : World) : Prop :=
  let r := history_loop NAMES speakers [line] [] [] w in
  (exists built, outcome r = Ok built
     /\ (spec_valid_line line = true <-> fst built <> [])
     /\ (spec_valid_line line = false ->
           exists e, In (Ev_warning e) (trace r))).

End LineRule.

(** ** Kinds of error in the specification *)

Inductive error_kind : Type :=
| ValidationError
| CollaboratorError
| ParseError.

(** Follows the specification: the error a conversation fails with tells
    its kind.  [classify] reads the kind off the exception: a call refused
    before any collaborator was called is a validation error, a call that
    failed because a collaborator raised is a collaborator error. *)
Definition errors_are_typed `{B : Backend} (NAMES : list string)
    (classify : exn -> error_kind) : Prop :=
  forall sched names iam audio model max_tokens temperature timeout samplerate
         channels w e,
    let r := conversation NAMES sched names iam audio model max_tokens temperature
               timeout samplerate channels w in
    outcome r = Raise e ->
    (trace r = [] -> classify e = ValidationError)
    /\ (In e (raised (trace r)) -> classify e = CollaboratorError).

(** The generated text of the transcript example of the specification. *)
Definition example_reply : string :=
  "Alice:Hello there" +:+ PyStr.LF +:+ "Bob:" +:+ PyStr.LF
    +:+ "Unknown:hi" +:+ PyStr.LF +:+ "Carol:Good to see you".

(** ** A test double for the collaborators *)

Module Demo.

(** The outside world of the double: the registered voices, what the
    transcription and the text generation will answer, a text on which
    synthesis fails, and the number of synthesis calls served. *)
Record world : Type := {
  registered : list string;
  transcription : res string;
  reply : res string;
  unspeakable : option string;
  served : nat
}.

Definition knows (nm : string) (w : world) : bool :=
  str_in nm (registered w).

Definition with_voice (nm : string) (w : world) : world :=
  {| registered := nm :: registered w; transcription := transcription w;
     reply := reply w; unspeakable := unspeakable w; served := served w |}.

Definition tick (w : world) : world :=
  {| registered := registered w; transcription := transcription w;
     reply := reply w; unspeakable := unspeakable w; served := S (served w) |}.

Definition speak (text : string) (v : string) (w : world)
  : res (list Byte.byte) * world :=
  (if bool_decide (unspeakable w = Some text)
   then Raise (OtherError "APIError" text)
   else Ok (list_byte_of_string (v +:+ "/" +:+ PyStr.of_nat (served w) +:+ "/" +:+ text)),
   tick w).

Definition load (text : string) : res yaml :=
  if String.eqb text "Alice: [{url: a}]"
  then Ok (YDict [(YStr "Alice", YList [YDict [(YStr "url", YStr "a")]])])
  else if String.eqb text "{Alice: [{url: a}], Dave: [{url: u}, {url: v, duration: 60}]}"
  then Ok (YDict [(YStr "Alice", YList [YDict [(YStr "url", YStr "a")]]);
                  (YStr "Dave",
                   YList [YDict [(YStr "url", YStr "u")];
                          YDict [(YStr "url", YStr "v"); (YStr "duration", YInt 60)]])])
  else Raise (OtherError "YAMLError" text).

#[global] Instance backend : Backend := {|
  World := world;
  Voice := string;
  Audio := unit;
  Number := Z;
  Path := string;
  SoundFile := list Byte.byte;
  Samples := list Byte.byte;
  check_voice_exists nm w :=
    (Ok (if knows nm w then Some nm else None), w);
  get_make_voice nm audio_path w :=
    if knows nm w then (Ok nm, w)
    else match audio_path with
         | Some _ => (Ok nm, with_voice nm w)
         | None => (Raise (AssertionError "audio_path must be provided"), w)
         end;
  text_to_speechbytes := speak;
  speech_to_text _ w := (transcription w, w);
  fake_conversation _ _ _ _ _ _ w := (reply w, w);
  extract_audio _ label _ _ w := (Ok label, w);
  yaml_safe_load := load;
  sf_SoundFile speech_bytes w := (Ok speech_bytes, w);
  sf_read soundFile w := (Ok soundFile, w);
  sf_samplerate _ := 44100%Z;
  sd_play _ _ w := (Ok tt, w);
  format_value v := type_name_of v
|}.

Definition w0 : world :=
  {| registered := ["Alice"; "Bob"; "Carol"];
     transcription := Ok "Hi all";
     reply := Ok example_reply;
     unspeakable := None;
     served := 0 |}.

Definition NAMES3 : list string := ["Alice"; "Bob"; "Carol"].

Definition speaker_of (i : nat) (nm : string) : Speaker :=
  {| name := nm; voice := nm; color := color_of i |}.

(** The speakers of a conversation between Alice, Bob and Carol. *)
Definition speakers3 : gmap string Speaker :=
  <["Carol" := speaker_of 2 "Carol"]>
    (<["Bob" := speaker_of 1 "Bob"]>
       (<["Alice" := speaker_of 0 "Alice"]> ∅)).

(** The speakers of a conversation between Alice and Bob only. *)
Definition speakers2 : gmap string Speaker :=
  <["Bob" := speaker_of 1 "Bob"]> (<["Alice" := speaker_of 0 "Alice"]> ∅).

(** A world whose text generation answers [text]. *)
Definition replying (text : string) : world :=
  {| registered := registered w0; transcription := transcription w0;
     reply := Ok text; unspeakable := None; served := 0 |}.

(** A world whose transcription fails with [e]. *)
Definition deaf (e : exn) : world :=
  {| registered := registered w0; transcription := Raise e;
     reply := reply w0; unspeakable := None; served := 0 |}.

(** A world whose synthesis fails on [text]. *)
Definition mute (text : string) : world :=
  {| registered := registered w0; transcription := transcription w0;
     reply := reply w0; unspeakable := Some text; served := 0 |}.

End Demo.


(** ** The defaults of the interface, lines 30-32 *)

(** The element of [seq] at a drawn position; [draw] stands for the random
    number, and an empty [seq] raises [IndexError]. *)
Definition draw_from (msg : string) (draw : nat) (seq : list string) : res string :=
  match seq !! (draw mod length seq) with
  | Some x => Ok x
  | None => Raise (OtherError "IndexError" msg)
  end.

(** [random.choice(seq)]. *)
Definition random_choice (draw : nat) (seq : list string) : res string :=
  draw_from "Cannot choose from an empty sequence" draw seq.

(** [random.choices(population, k=2)]: two draws, with replacement. *)
Definition random_choices (draw1 draw2 : nat) (population : list string)
  : res (list string) :=
  (a <-? draw_from "list index out of range" draw1 population ;;
   b <-? draw_from "list index out of range" draw2 population ;;
   Ok [a; b])%res.

(** [DEFAULT_VOICES], line 31. *)
Definition DEFAULT_VOICES (draw1 draw2 : nat) (NAMES : list string)
  : res (list string) :=
  random_choices draw1 draw2 NAMES.

(** [DEFAULT_IAM], line 32. *)
Definition DEFAULT_IAM (draw : nat) (voices : list string) : res string :=
  random_choice draw voices.

(** ** More readings of a trace *)

Section MoreTraces.

Context `{B : Backend}.

(** The names looked up by [check_voice_exists]. *)
Definition lookups (tr : list Event) : list string :=
  omap (fun ev => match ev with
                  | Ev_check_voice_exists n => Some n
                  | _ => None
                  end) tr.

(** The calls of [extract_audio]. *)
Definition extractions (tr : list Event) : list (yaml * string * yaml * yaml) :=
  omap (fun ev => match ev with
                  | Ev_extract_audio url label start_minute duration =>
                      Some (url, label, start_minute, duration)
                  | _ => None
                  end) tr.

(** The registrations: [get_make_voice] with audio paths. *)
Definition registrations (tr : list Event) : list (string * list Path) :=
  omap (fun ev => match ev with
                  | Ev_get_make_voice n (Some paths) => Some (n, paths)
                  | _ => None
                  end) tr.

(** The clips handed to [sf.SoundFile]. *)
Definition decoded (tr : list Event) : list (list Byte.byte) :=
  omap (fun ev => match ev with
                  | Ev_SoundFile clip => Some clip
                  | _ => None
                  end) tr.

(** The two calls the setup loop makes for a name, lines 69-73. *)
Definition setup_calls (n : string) : list Event :=
  [Ev_check_voice_exists n; Ev_get_make_voice n None].

(** The block of a History entry, line 98. *)
Definition entry_bubble (entry : Speaker * string) : string :=
  bubble (color (fst entry)) (snd entry).

(** The label of the [i]-th video of a persona, line 122. *)
Definition label_of (nm : string) (i : nat) : string :=
  "audio." +:+ nm +:+ "." +:+ PyStr.of_nat i.

(** A video entry the loop of lines 116-124 refuses. *)
Definition malformed (video : yaml) : Prop :=
  forall items, video = YDict items -> dict_has items "url" = false.

End MoreTraces.

(** The test double over another registry: [yaml.safe_load] answers [doc]
    whatever the text, every other collaborator is the one of
    [Demo.backend]. *)
Definition backend_loading (doc : res yaml) : Backend := {|
  World := Demo.world;
  Voice := string;
  Audio := unit;
  Number := Z;
  Path := string;
  SoundFile := list Byte.byte;
  Samples := list Byte.byte;
  check_voice_exists := check_voice_exists (Backend := Demo.backend);
  get_make_voice := get_make_voice (Backend := Demo.backend);
  text_to_speechbytes := text_to_speechbytes (Backend := Demo.backend);
  speech_to_text := speech_to_text (Backend := Demo.backend);
  fake_conversation := fake_conversation (Backend := Demo.backend);
  extract_audio := extract_audio (Backend := Demo.backend);
  yaml_safe_load := fun _ => doc;
  sf_SoundFile := sf_SoundFile (Backend := Demo.backend);
  sf_read := sf_read (Backend := Demo.backend);
  sf_samplerate := sf_samplerate (Backend := Demo.backend);
  sd_play := sd_play (Backend := Demo.backend);
  format_value := format_value (Backend := Demo.backend)
|}.

(** A registry whose only persona has a video that is not a dict. *)
Definition broken_registry : yaml :=
  YDict [(YStr "Dave", YList [YDict [(YStr "url", YStr "u")]; YStr "oops"])].

(** * Properties *)

(** ** Runs compose *)

Section RunLemmas.

Context `{B : Backend}.

Lemma bind_Ok {A C} (m : M A) (k : A -> M C) (w : World) (a : A) :
  outcome (m w) = Ok a ->
  bind m k w =
    {| outcome := outcome (k a (final (m w)));
       final := final (k a (final (m w)));
       trace := trace (m w) ++ trace (k a (final (m w))) |}.
Proof. intros H. unfold bind. now rewrite H. Qed.

Lemma bind_Raise {A C} (m : M A) (k : A -> M C) (w : World) (e : exn) :
  outcome (m w) = Raise e ->
  bind m k w = {| outcome := Raise e; final := final (m w); trace := trace (m w) |}.
Proof. intros H. unfold bind. now rewrite H. Qed.

Lemma bind_ret {A C} (a : A) (k : A -> M C) (w : World) :
  bind (ret a) k w = k a w.
Proof. unfold bind, ret. simpl. now destruct (k a w). Qed.

Lemma bind_lift_Ok {A C} (a : A) (k : A -> M C) (w : World) :
  bind (lift (Ok a)) k w = k a w.
Proof. apply bind_ret. Qed.

Lemma bind_lift_Raise {A C} (e : exn) (k : A -> M C) (w : World) :
  bind (lift (Raise e)) k w = {| outcome := Raise e; final := w; trace := [] |}.
Proof. reflexivity. Qed.

Lemma call_outcome {A} (ev : Event) (f : World -> res A * World) (w : World) :
  outcome (call ev f w) = fst (f w) /\ final (call ev f w) = snd (f w).
Proof. unfold call. now destruct (f w). Qed.

Lemma call_Ok {A} (ev : Event) (f : World -> res A * World) (w w' : World) (a : A) :
  f w = (Ok a, w') ->
  call ev f w = {| outcome := Ok a; final := w'; trace := [ev] |}.
Proof. intros H. unfold call. now rewrite H. Qed.

Lemma call_Raise {A} (ev : Event) (f : World -> res A * World) (w w' : World) (e : exn) :
  f w = (Raise e, w') ->
  call ev f w = {| outcome := Raise e; final := w'; trace := [ev; Ev_raised e] |}.
Proof. intros H. unfold call. now rewrite H. Qed.

Lemma bind_step {A C} (m : M A) (k : A -> M C) (w w1 : World) (a : A) (t1 : list Event) :
  m w = {| outcome := Ok a; final := w1; trace := t1 |} ->
  bind m k w =
    {| outcome := outcome (k a w1); final := final (k a w1);
       trace := t1 ++ trace (k a w1) |}.
Proof. intros H. rewrite (bind_Ok m k w a); now rewrite H. Qed.

Lemma bind_stop {A C} (m : M A) (k : A -> M C) (w w1 : World) (e : exn) (t1 : list Event) :
  m w = {| outcome := Raise e; final := w1; trace := t1 |} ->
  bind m k w = {| outcome := Raise e; final := w1; trace := t1 |}.
Proof. intros H. rewrite (bind_Raise m k w e); now rewrite H. Qed.

Lemma bind_inv_Ok {A C} (m : M A) (k : A -> M C) (w w' : World) (c : C) (t : list Event) :
  bind m k w = {| outcome := Ok c; final := w'; trace := t |} ->
  exists a w1 t1 t2,
    m w = {| outcome := Ok a; final := w1; trace := t1 |}
    /\ k a w1 = {| outcome := Ok c; final := w'; trace := t2 |}
    /\ t = t1 ++ t2.
Proof.
  unfold bind. destruct (m w) as [o w1 t1]. simpl. destruct o as [a|e].
  - destruct (k a w1) as [o2 w2 t2] eqn:Hk. simpl. intros H.
    injection H as -> -> <-. exists a, w1, t1, t2. now rewrite Hk.
  - intros H. discriminate H.
Qed.

Lemma call_inv_Ok {A} (ev : Event) (f : World -> res A * World) (w w' : World) (a : A) (t : list Event) :
  call ev f w = {| outcome := Ok a; final := w'; trace := t |} ->
  f w = (Ok a, w') /\ t = [ev].
Proof.
  unfold call. destruct (f w) as [r w1]. intros H.
  injection H as -> -> <-. auto.
Qed.

Lemma lift_inv_Ok {A} (r : res A) (w w' : World) (a : A) (t : list Event) :
  lift r w = {| outcome := Ok a; final := w'; trace := t |} ->
  r = Ok a /\ w' = w /\ t = [].
Proof.
  destruct r; simpl; unfold ret, raise; intros H.
  - injection H as -> -> <-. auto.
  - discriminate H.
Qed.

(** A property of every event of [m] and of every continuation holds of
    every event of their composition. *)
Lemma trace_bind_Forall {A C} (P : Event -> Prop) (m : M A) (k : A -> M C) (w : World) :
  Forall P (trace (m w)) ->
  (forall a w', Forall P (trace (k a w'))) ->
  Forall P (trace (bind m k w)).
Proof.
  intros Hm Hk. unfold bind.
  destruct (outcome (m w)); simpl; [|exact Hm].
  apply Forall_app. split; [exact Hm | apply Hk].
Qed.

End RunLemmas.

(** ** The unused settings *)

Section Settings.

Context `{B : Backend}.
Variable NAMES : list string.

(** C8.  [timeout], [samplerate] and [channels] have no effect: two calls
    of [conversation] that agree on every other argument, start in the same
    world and meet the same order of completion make the same run, that
    is the same returned HTML (or exception), the same collaborator calls
    with the same arguments in the same order (among them the synthesis
    requests, one per History entry), and the same final world. *)
Theorem conversation_ignores_audio_settings
    (sched : list nat) (names : list string) (iam : string) (audio : Audio)
    (model : string) (max_tokens temperature : Number)
    (timeout1 samplerate1 channels1 timeout2 samplerate2 channels2 : Number)
    (w : World) :
  conversation NAMES sched names iam audio model max_tokens temperature
    timeout1 samplerate1 channels1 w
  = conversation NAMES sched names iam audio model max_tokens temperature
      timeout2 samplerate2 channels2 w.
Proof. reflexivity. Qed.

End Settings.

(** ** Validation and provisioning status *)

Section Validation.

Context `{B : Backend}.
Variable NAMES : list string.

(** The first name whose lookup answers [None] stops the loop with an
    assertion error that names it. *)
Lemma speakers_loop_missing (missing : string) (post : list string) (w2 : World) :
  forall (pre : list string) (i : nat) (speakers0 speakers : gmap string Speaker)
         (w w1 : World) (t1 : list Event),
    speakers_loop i pre speakers0 w
      = {| outcome := Ok speakers; final := w1; trace := t1 |} ->
    check_voice_exists missing w1 = (Ok None, w2) ->
    speakers_loop i (pre ++ missing :: post) speakers0 w
      = {| outcome := Raise (AssertionError ("Voice " +:+ missing +:+ " does not exist"));
           final := w2;
           trace := t1 ++ [Ev_check_voice_exists missing] |}.
Proof.
  induction pre as [|n pre IH]; intros i speakers0 speakers w w1 t1 Hpre Hmiss.
  - simpl in Hpre. unfold ret in Hpre. injection Hpre as <- <- <-.
    simpl. erewrite bind_step by (apply call_Ok; exact Hmiss).
    reflexivity.
  - simpl in Hpre.
    apply bind_inv_Ok in Hpre as (found & wa & ta & tb & Hcall & Hpre & ->).
    apply bind_inv_Ok in Hpre as (u & wb & tc & td & Hassert & Hpre & ->).
    apply bind_inv_Ok in Hpre as (v & wc & te & tf & Hmake & Hpre & ->).
    apply lift_inv_Ok in Hassert as (Hassert & -> & ->).
    simpl. erewrite bind_step by exact Hcall.
    rewrite Hassert. rewrite bind_lift_Ok.
    erewrite bind_step by exact Hmake.
    erewrite IH by eassumption. simpl.
    now rewrite !app_assoc.
Qed.

(** C4.  A conversation whose [iam] is not among [names] fails with the
    assertion error that names [iam], before any collaborator is called:
    the trace is empty and the world untouched.  When [iam] is among
    [names] and the voice lookup answers [None] for a name (the names
    before it having gone through), the call fails with the assertion
    error that names this persona, right after that lookup. *)
Theorem conversation_validates
    (sched : list nat) (names : list string) (iam : string) (audio : Audio)
    (model : string) (max_tokens temperature timeout samplerate channels : Number)
    (w : World) :
  (str_in iam names = false ->
   conversation NAMES sched names iam audio model max_tokens temperature
     timeout samplerate channels w
   = {| outcome := Raise (AssertionError ("I am " +:+ iam +:+ " but I don't have a voice"));
        final := w; trace := [] |})
  /\ (forall (pre post : list string) (missing : string)
             (speakers : gmap string Speaker) (w1 w2 : World) (t1 : list Event),
        str_in iam names = true ->
        names = pre ++ missing :: post ->
        speakers_loop 0 pre ∅ w
          = {| outcome := Ok speakers; final := w1; trace := t1 |} ->
        check_voice_exists missing w1 = (Ok None, w2) ->
        conversation NAMES sched names iam audio model max_tokens temperature
          timeout samplerate channels w
        = {| outcome := Raise (AssertionError ("Voice " +:+ missing +:+ " does not exist"));
             final := w2;
             trace := t1 ++ [Ev_check_voice_exists missing] |}).
Proof.
  split.
  - intros Hiam. unfold conversation. rewrite Hiam. reflexivity.
  - intros pre post missing speakers w1 w2 t1 Hiam -> Hpre Hmiss.
    unfold conversation. rewrite Hiam. simpl assert. rewrite bind_lift_Ok.
    apply bind_stop. eapply speakers_loop_missing; eassumption.
Qed.

(** [make_voices] is its body with the status appended: the handler
    raises the exception it caught. *)
Lemma make_voices_unfold (voices_yaml : string) (w : World) :
  make_voices voices_yaml w =
    {| outcome := match outcome (make_voices_body voices_yaml w) with
                  | Ok _ => Ok "Success"
                  | Raise e => Raise e
                  end;
       final := final (make_voices_body voices_yaml w);
       trace := trace (make_voices_body voices_yaml w) |}.
Proof.
  unfold make_voices, bind, try_except, raise.
  destruct (make_voices_body voices_yaml w) as [o w1 t1]. simpl.
  destruct o; simpl; now rewrite app_nil_r.
Qed.

(** C9.  [make_voices] never returns an error status: for every registry
    document and every world it either raises, and then it raises the
    very exception its body raised, or it returns exactly "Success". *)
Theorem make_voices_raises_or_succeeds (voices_yaml : string) (w : World) :
  ((exists e, outcome (make_voices voices_yaml w) = Raise e
              /\ outcome (make_voices_body voices_yaml w) = Raise e)
   \/ (outcome (make_voices voices_yaml w) = Ok "Success"
       /\ outcome (make_voices_body voices_yaml w) = Ok tt))
  /\ final (make_voices voices_yaml w) = final (make_voices_body voices_yaml w)
  /\ trace (make_voices voices_yaml w) = trace (make_voices_body voices_yaml w).
Proof.
  rewrite make_voices_unfold. simpl.
  destruct (outcome (make_voices_body voices_yaml w)) as [[]|e].
  - split; [right|]; auto.
  - split; [left; exists e|]; auto.
Qed.

End Validation.

(** ** The transcript loop *)

Section StringLemmas.

Lemma split_cut (sep : ascii) (s : string) :
  PyStr.split sep s =
    match cut sep s with
    | Some (before, after) => before :: PyStr.split sep after
    | None => [s]
    end.
Proof.
  induction s as [|c s IH]; simpl; [reflexivity|].
  destruct (Ascii.eqb c sep); [reflexivity|].
  rewrite IH. now destruct (cut sep s) as [[before after]|].
Qed.

Lemma count_cut (sep : ascii) (s : string) :
  PyStr.count sep s =
    match cut sep s with
    | Some (_, after) => S (PyStr.count sep after)
    | None => 0
    end.
Proof.
  induction s as [|c s IH]; simpl; [reflexivity|].
  destruct (Ascii.eqb c sep); [reflexivity|].
  rewrite IH. now destruct (cut sep s) as [[before after]|].
Qed.

Lemma contains_cut (sep : ascii) (s : string) :
  PyStr.contains sep s =
    match cut sep s with
    | Some _ => true
    | None => false
    end.
Proof.
  induction s as [|c s IH]; simpl; [reflexivity|].
  destruct (Ascii.eqb c sep); [reflexivity|].
  rewrite IH. now destruct (cut sep s) as [[before after]|].
Qed.

(** A line with a single separator splits in two, at that separator. *)
Lemma split_single (sep : ascii) (s before after : string) :
  PyStr.count sep s <= 1 ->
  cut sep s = Some (before, after) ->
  PyStr.split sep s = [before; after].
Proof.
  intros Hcount Hcut. rewrite count_cut, Hcut in Hcount.
  rewrite split_cut, Hcut. f_equal.
  rewrite split_cut. rewrite count_cut in Hcount.
  destruct (cut sep after) as [[x y]|]; [lia | reflexivity].
Qed.

(** More than one separator gives more than two fields. *)
Lemma split_many (sep : ascii) (s : string) :
  2 <= PyStr.count sep s ->
  exists a b c rest, PyStr.split sep s = a :: b :: c :: rest.
Proof.
  intros Hcount. rewrite count_cut in Hcount. rewrite split_cut.
  destruct (cut sep s) as [[x y]|]; [|lia].
  rewrite count_cut in Hcount. rewrite split_cut.
  destruct (cut sep y) as [[y1 y2]|]; [|lia].
  rewrite split_cut. destruct (cut sep y2) as [[z1 z2]|]; eauto.
Qed.

Lemma truthy_length (s : string) :
  (0 <? String.length s)%nat = PyStr.truthy s.
Proof. now destruct s. Qed.

Lemma str_in_In (x : string) (xs : list string) :
  str_in x xs = true <-> In x xs.
Proof.
  unfold str_in. rewrite existsb_exists. split.
  - intros (y & Hy & Heq). apply String.eqb_eq in Heq. now subst.
  - intros Hx. exists x. split; [exact Hx | apply String.eqb_refl].
Qed.

End StringLemmas.

Section Transcript.

Context `{B : Backend}.
Variable NAMES : list string.

(** What the body of the [try] does with a line that has at most one
    separator and whose speaker, when known, was built. *)
Lemma line_body_cases (speakers : gmap string Speaker) (line : string) :
  PyStr.count ":" line <= 1 ->
  speaker_active NAMES speakers line ->
  (line = EmptyString /\ line_body NAMES speakers line = Ok None)
  \/ (line <> EmptyString
      /\ match spec_entry NAMES speakers line with
         | Some entry => line_body NAMES speakers line = Ok (Some entry)
         | None => exists msg, line_body NAMES speakers line = Raise (AssertionError msg)
         end).
Proof.
  intros Hcount Hactive.
  destruct (PyStr.truthy line) eqn:Htruthy.
  2:{ left. destruct line; [|discriminate]. auto. }
  right. split; [now destruct line|].
  unfold line_body, spec_entry, spec_valid_line.
  rewrite Htruthy. simpl negb. cbv iota.
  rewrite contains_cut.
  destruct (cut ":" line) as [[nm text]|] eqn:Hcut; simpl.
  - rewrite (split_single _ _ _ _ Hcount Hcut). simpl.
    destruct (str_in nm NAMES) eqn:Hin; simpl; [|eauto].
    destruct (Hactive nm text Hcut Hin) as [sp Hsp].
    unfold getitem. rewrite Hsp. simpl.
    rewrite truthy_length. destruct (PyStr.truthy text); simpl; eauto.
  - eauto.
Qed.

Lemma spec_entry_valid (speakers : gmap string Speaker) (line : string) :
  speaker_active NAMES speakers line ->
  is_Some (spec_entry NAMES speakers line) <-> spec_valid_line NAMES line = true.
Proof.
  intros Hactive. unfold spec_entry.
  destruct (spec_valid_line NAMES line) eqn:Hvalid.
  - split; [auto|intros _].
    unfold spec_valid_line in Hvalid.
    destruct (cut ":" line) as [[nm text]|] eqn:Hcut.
    + apply andb_prop in Hvalid as [_ Hvalid].
      apply andb_prop in Hvalid as [Hin _].
      destruct (Hactive nm text Hcut Hin) as [sp ->]. eauto.
    + now rewrite andb_false_r in Hvalid.
  - split; [intros [x Hx]; discriminate | discriminate].
Qed.

(** One turn of the loop on a line the body keeps. *)
Lemma history_loop_keep speakers line lines history history_html w speaker text :
  line_body NAMES speakers line = Ok (Some (speaker, text)) ->
  history_loop NAMES speakers (line :: lines) history history_html w
  = history_loop NAMES speakers lines (history ++ [(speaker, text)])
      (history_html ++ [bubble (color speaker) text]) w.
Proof. intros H. simpl. now rewrite H. Qed.

(** One turn of the loop on an empty line. *)
Lemma history_loop_empty speakers line lines history history_html w :
  line_body NAMES speakers line = Ok None ->
  history_loop NAMES speakers (line :: lines) history history_html w
  = history_loop NAMES speakers lines history history_html w.
Proof. intros H. simpl. now rewrite H. Qed.

(** One turn of the loop on a line whose assertion fails. *)
Lemma history_loop_warn speakers line lines history history_html w msg :
  line_body NAMES speakers line = Raise (AssertionError msg) ->
  history_loop NAMES speakers (line :: lines) history history_html w
  = {| outcome := outcome (history_loop NAMES speakers lines history history_html w);
       final := final (history_loop NAMES speakers lines history history_html w);
       trace := Ev_warning (AssertionError msg)
                  :: trace (history_loop NAMES speakers lines history history_html w) |}.
Proof. intros H. simpl. now rewrite H. Qed.

(** The whole loop, on lines that all have at most one separator and
    only built speakers: the entries of the valid lines, in order. *)
Lemma history_loop_spec (speakers : gmap string Speaker) (lines : list string) :
  Forall (fun line => PyStr.count ":" line <= 1
                      /\ speaker_active NAMES speakers line) lines ->
  forall history history_html w,
    let kept := omap (spec_entry NAMES speakers) lines in
    let r := history_loop NAMES speakers lines history history_html w in
    outcome r = Ok (history ++ kept,
                    history_html ++ map (fun entry => bubble (color (fst entry)) (snd entry)) kept)
    /\ final r = w
    /\ Forall (fun ev => is_warning ev = true) (trace r)
    /\ length (trace r)
       = length (List.filter
                   (fun line => PyStr.truthy line && negb (spec_valid_line NAMES line))
                   lines).
Proof.
  induction 1 as [|line lines [Hcount Hactive] _ IH]; intros history history_html w.
  - simpl. now rewrite !app_nil_r.
  - pose proof (spec_entry_valid speakers line Hactive) as Hvalid.
    destruct (line_body_cases speakers line Hcount Hactive)
      as [[-> Hbody]|[Hne Hbody]].
    + rewrite (history_loop_empty _ _ _ _ _ _ Hbody). simpl. apply IH.
    + assert (PyStr.truthy line = true) as Htruthy by now destruct line.
      cbn zeta. simpl omap. simpl List.filter. rewrite Htruthy. simpl andb.
      destruct (spec_entry NAMES speakers line) as [[speaker text]|].
      * rewrite (history_loop_keep _ _ _ _ _ _ _ _ Hbody).
        assert (spec_valid_line NAMES line = true) as -> by (apply Hvalid; eauto).
        simpl.
        destruct (IH (history ++ [(speaker, text)])
                    (history_html ++ [bubble (color speaker) text]) w)
          as (H1 & H2 & H3 & H4).
        rewrite <- !app_assoc in H1. repeat split; auto.
      * destruct Hbody as [msg Hbody].
        rewrite (history_loop_warn _ _ _ _ _ _ _ Hbody).
        assert (spec_valid_line NAMES line = false) as ->.
        { destruct (spec_valid_line NAMES line); [|reflexivity].
          destruct Hvalid as [_ Hvalid]. destruct (Hvalid eq_refl). discriminate. }
        simpl. destruct (IH history history_html w) as (H1 & H2 & H3 & H4).
        repeat split; auto.
Qed.

(** A reply without a valid line, and without a line that raises, leaves
    the History empty. *)
Lemma history_loop_no_valid_line (speakers : gmap string Speaker) (lines : list string)
    (w : World) :
  Forall (fun line => PyStr.count ":" line <= 1
                      /\ speaker_active NAMES speakers line) lines ->
  Forall (fun line => spec_valid_line NAMES line = false) lines ->
  outcome (history_loop NAMES speakers lines [] [] w) = Ok ([], []).
Proof.
  intros Hlines Hinvalid.
  destruct (history_loop_spec speakers lines Hlines [] [] w) as (Hout & _).
  cbn zeta in Hout. rewrite Hout.
  assert (omap (spec_entry NAMES speakers) lines = []) as ->; [|reflexivity].
  clear -Hinvalid. induction Hinvalid as [|line lines Hline _ IH]; [reflexivity|].
  simpl. unfold spec_entry at 1. now rewrite Hline.
Qed.

End Transcript.

Section TranscriptClaims.

Context `{B : Backend}.
Variable NAMES : list string.

(** C2, as the code has it.  Take lines that each hold at most one ":" and
    name, when they name a known persona, one whose speaker was built.
    Then the loop raises nothing and keeps exactly the valid lines, in
    order: a line is kept iff it is non-empty, has the delimiter, a known
    name and a non-empty text.  An empty line is skipped without a
    warning; every other invalid line is skipped with one warning. *)
Theorem history_loop_keeps_valid_lines
    (speakers : gmap string Speaker) (lines : list string)
    (history : list (Speaker * string)) (history_html : list string) (w : World) :
  Forall (fun line => PyStr.count ":" line <= 1
                      /\ speaker_active NAMES speakers line) lines ->
  let kept := omap (spec_entry NAMES speakers) lines in
  let r := history_loop NAMES speakers lines history history_html w in
  outcome r = Ok (history ++ kept,
                  history_html ++ map (fun entry => bubble (color (fst entry)) (snd entry)) kept)
  /\ (forall line, In line lines ->
        (is_Some (spec_entry NAMES speakers line) <-> spec_valid_line NAMES line = true))
  /\ final r = w
  /\ Forall (fun ev => is_warning ev = true) (trace r)
  /\ length (trace r)
     = length (List.filter
                 (fun line => PyStr.truthy line && negb (spec_valid_line NAMES line))
                 lines).
Proof.
  intros Hlines kept r.
  destruct (history_loop_spec NAMES speakers lines Hlines history history_html w)
    as (H1 & H2 & H3 & H4).
  split; [exact H1|]. split; [|auto].
  intros line Hin. apply spec_entry_valid.
  rewrite List.Forall_forall in Hlines. now destruct (Hlines line Hin).
Qed.

(** C3.  With the known personas Alice, Bob and Carol, all three built,
    the text "Alice:Hello there\nBob:\nUnknown:hi\nCarol:Good to see you"
    gives a History of exactly two entries, Alice's "Hello there" then
    Carol's "Good to see you"; Bob's empty line and the line of the
    unknown speaker are dropped, each with a warning. *)
Theorem transcript_example
    (speakers : gmap string Speaker) (alice bob carol : Speaker)
    (history_html : list string) (w : World) :
  (forall x, In x NAMES <-> x = "Alice" \/ x = "Bob" \/ x = "Carol") ->
  speakers !! "Alice" = Some alice ->
  speakers !! "Bob" = Some bob ->
  speakers !! "Carol" = Some carol ->
  history_loop NAMES speakers (PyStr.splitlines example_reply) [] history_html w
  = {| outcome :=
         Ok ([(alice, "Hello there"); (carol, "Good to see you")],
             history_html ++ [bubble (color alice) "Hello there";
                              bubble (color carol) "Good to see you"]);
       final := w;
       trace :=
         [Ev_warning (AssertionError "Text  is empty");
          Ev_warning (AssertionError
                        ("Name Unknown is not in "
                           +:+ format_value (YList (map YStr NAMES))))] |}.
Proof.
  intros Hnames Halice Hbob Hcarol.
  assert (str_in "Alice" NAMES = true) as HA by (apply str_in_In, Hnames; auto).
  assert (str_in "Bob" NAMES = true) as HB by (apply str_in_In, Hnames; auto).
  assert (str_in "Carol" NAMES = true) as HC by (apply str_in_In, Hnames; auto).
  assert (str_in "Unknown" NAMES = false) as HU.
  { destruct (str_in "Unknown" NAMES) eqn:E; [|reflexivity].
    apply str_in_In, Hnames in E. destruct E as [E|[E|E]]; discriminate E. }
  change (PyStr.splitlines example_reply)
    with ["Alice:Hello there"; "Bob:"; "Unknown:hi"; "Carol:Good to see you"].
  erewrite history_loop_keep.
  2:{ unfold line_body. simpl. rewrite HA. unfold getitem. rewrite Halice. reflexivity. }
  erewrite history_loop_warn.
  2:{ unfold line_body. simpl. rewrite HB. unfold getitem. rewrite Hbob. reflexivity. }
  erewrite history_loop_warn.
  2:{ unfold line_body. simpl. rewrite HU. reflexivity. }
  erewrite history_loop_keep.
  2:{ unfold line_body. simpl. rewrite HC. unfold getitem. rewrite Hcarol. reflexivity. }
  simpl. now rewrite <- app_assoc.
Qed.

End TranscriptClaims.

(** C2, as stated, fails on the code in three ways.  An empty line is
    skipped without any warning.  A line with two ":" raises the
    [ValueError] of the unpacking, which the handler does not catch.  A line
    of a known persona whose speaker was not built raises a [KeyError]. *)
Lemma line_rule_as_specified_fails :
  ~ line_rule_as_specified Demo.NAMES3 Demo.speakers3 "" Demo.w0
  /\ ~ line_rule_as_specified Demo.NAMES3 Demo.speakers3 "Alice:one:two" Demo.w0
  /\ ~ line_rule_as_specified Demo.NAMES3 Demo.speakers2 "Carol:hi" Demo.w0.
Proof.
  unfold line_rule_as_specified. repeat split.
  - intros (built & Hok & _ & Hwarn).
    destruct (Hwarn eq_refl) as [e He]. vm_compute in He. exact He.
  - intros (built & Hok & _). vm_compute in Hok. discriminate Hok.
  - intros (built & Hok & _). vm_compute in Hok. discriminate Hok.
Qed.

Example two_colons_abort :
  outcome (history_loop Demo.NAMES3 Demo.speakers3 ["Alice:one:two"] [] [] Demo.w0)
  = Raise (ValueError "too many values to unpack (expected 2)").
Proof. vm_compute. reflexivity. Qed.

Example inactive_speaker_aborts :
  outcome (history_loop Demo.NAMES3 Demo.speakers2 ["Carol:hi"] [] [] Demo.w0)
  = Raise (KeyError "Carol").
Proof. vm_compute. reflexivity. Qed.

Example empty_line_is_silent :
  history_loop Demo.NAMES3 Demo.speakers3 [""] [] [] Demo.w0
  = {| outcome := Ok ([], []); final := Demo.w0; trace := [] |}.
Proof. reflexivity. Qed.

(** Discharges [speaker_active] for a concrete line and concrete speakers. *)
Ltac active_by_computation :=
  let nm := fresh "nm" in
  let text := fresh "text" in
  let Hcut := fresh "Hcut" in
  let Hin := fresh "Hin" in
  intros nm text Hcut Hin; vm_compute in Hcut;
  first [ discriminate Hcut
        | injection Hcut as <- <-; vm_compute in Hin;
          first [ discriminate Hin | vm_compute; eauto ] ].

Lemma history_loop_keeps_valid_lines_witness :
  outcome (history_loop Demo.NAMES3 Demo.speakers3
             ["Alice:Hi"; ""; "Bob:"; "no delimiter"; "Zed:hello"; "Carol:Bye"]
             [] [] Demo.w0)
  = Ok ([(Demo.speaker_of 0 "Alice", "Hi"); (Demo.speaker_of 2 "Carol", "Bye")],
        [bubble "#FFA07A" "Hi"; bubble "#AFEEEE" "Bye"]).
Proof.
  refine (proj1 (history_loop_keeps_valid_lines Demo.NAMES3 Demo.speakers3
                   ["Alice:Hi"; ""; "Bob:"; "no delimiter"; "Zed:hello"; "Carol:Bye"]
                   [] [] Demo.w0 _)).
  repeat (apply List.Forall_cons;
          [split; [vm_compute; lia | active_by_computation]|]).
  apply List.Forall_nil.
Defined.

Lemma transcript_example_witness :
  outcome (history_loop Demo.NAMES3 Demo.speakers3
             (PyStr.splitlines example_reply) [] [] Demo.w0)
  = Ok ([(Demo.speaker_of 0 "Alice", "Hello there");
         (Demo.speaker_of 2 "Carol", "Good to see you")],
        [bubble "#FFA07A" "Hello there"; bubble "#AFEEEE" "Good to see you"]).
Proof.
  rewrite (transcript_example Demo.NAMES3 Demo.speakers3
             (Demo.speaker_of 0 "Alice") (Demo.speaker_of 1 "Bob")
             (Demo.speaker_of 2 "Carol") [] Demo.w0).
  - reflexivity.
  - intros x. simpl. intuition congruence.
  - reflexivity.
  - reflexivity.
  - reflexivity.
Defined.

(** ** Synthesis and playback *)

Section Pipeline.

Context `{B : Backend}.

Lemma enumerate_fst {A} (l : list A) (i : nat) :
  map fst (enumerate i l) = seq i (length l).
Proof.
  revert i. induction l as [|x l IH]; intros i; simpl; [reflexivity|].
  now rewrite IH.
Qed.

Lemma insert_at_perm {A} (k : nat) (x : A) (l : list A) :
  Permutation (insert_at k x l) (x :: l).
Proof.
  unfold insert_at. rewrite <- Permutation_middle.
  now rewrite take_drop.
Qed.

(** Whatever the schedule, the workers that finish are the tasks, each
    once. *)
Lemma completion_order_perm {A} (sched : list nat) (tasks : list A) :
  Permutation (completion_order sched tasks) tasks.
Proof.
  revert sched. induction tasks as [|t tasks IH]; intros sched; simpl.
  - constructor.
  - rewrite insert_at_perm. now rewrite IH.
Qed.

Lemma submit_all_run (tasks : list task) (w : World) :
  submit_all tasks w
  = {| outcome := Ok tt; final := w; trace := map submit_event tasks |}.
Proof.
  induction tasks as [|[i [speaker text]] tasks IH]; simpl; [reflexivity|].
  unfold bind. simpl. now rewrite IH.
Qed.

Lemma first_exception_fold (first : option exn) (rs : list (res (list Byte.byte))) :
  foldl first_exception first rs
  = match first with
    | Some e => Some e
    | None => head (omap (fun r => match r with Raise e => Some e | Ok _ => None end) rs)
    end.
Proof.
  revert first. induction rs as [|r rs IH]; intros first; simpl.
  - now destruct first.
  - rewrite IH. destruct first, r; simpl; try reflexivity.
Qed.

(** The workers never raise into the gather: each leaves one completion
    event, the futures are filled accordingly, and the first exception is
    the one of the first worker that failed. *)
Lemma run_workers_run (order : list task) :
  forall (children : list future) (first : option exn) (w : World),
    let r := run_workers order children first w in
    outcome r = Ok (fill children (completions (trace r)),
                    foldl first_exception first (map snd (completions (trace r))))
    /\ map fst (completions (trace r)) = map fst order
    /\ Forall (fun ev => is_synthesis ev = true) (trace r)
    /\ requests (trace r) = []
    /\ raised (trace r) = []
    /\ played (trace r) = [].
Proof.
  induction order as [|t order IH]; intros children first w.
  - simpl. repeat split; constructor.
  - destruct t as [i [speaker text]].
    cbn zeta. simpl run_workers. unfold bind, text_to_speechbytes_async. simpl.
    destruct (text_to_speechbytes text (voice speaker) w) as [r w'] eqn:Hcall.
    simpl.
    destruct (IH (<[i := Some r]> children) (first_exception first r) w')
      as (H1 & H2 & H3 & H4 & H5 & H6).
    rewrite H1. simpl. repeat split; auto.
    now rewrite H2.
Qed.

Lemma fill_length (done : list (nat * res (list Byte.byte))) :
  forall children : list future, length (fill children done) = length children.
Proof.
  induction done as [|c done IH]; intros children; simpl; [reflexivity|].
  unfold fill in *. simpl. rewrite IH. apply length_insert.
Qed.


Lemma results_Ok (children : list future) (clips : list (list Byte.byte)) :
  results children = Ok clips ->
  children = map (fun clip => Some (Ok clip)) clips.
Proof.
  revert clips. induction children as [|fut children IH]; intros clips H; simpl in H.
  - now injection H as <-.
  - destruct fut as [[b|e]|]; simpl in H; try discriminate H.
    destruct (results children) as [bs|e]; simpl in H; try discriminate H.
    injection H as <-. simpl. now rewrite (IH bs eq_refl).
Qed.

Lemma failed_of_completions (tr : list Event) :
  omap (fun r : res (list Byte.byte) =>
          match r with Raise e => Some e | Ok _ => None end)
    (map snd (completions tr))
  = failed_synthesis tr.
Proof.
  induction tr as [|ev tr IH]; [reflexivity|].
  destruct ev as [ | | | | | |i r| | | | | ]; try exact IH.
  destruct r; simpl; [exact IH | f_equal; exact IH].
Qed.

(** The gather: the requests, then the completions, then the results in
    the order of the tasks unless a worker failed. *)
Lemma gather_run (sched : list nat) (tasks : list task) (w : World) :
  let rw := run_workers (completion_order sched tasks)
              (replicate (length tasks) None) None w in
  gather sched tasks w
  = {| outcome :=
         match head (failed_synthesis (trace rw)) with
         | Some e => Raise e
         | None =>
             results (fill (replicate (length tasks) None) (completions (trace rw)))
         end;
       final := final rw;
       trace := map submit_event tasks ++ trace rw |}.
Proof.
  cbn zeta. unfold gather.
  erewrite bind_step by apply submit_all_run.
  destruct (run_workers_run (completion_order sched tasks)
              (replicate (length tasks) None) None w) as (H1 & _).
  set (rw := run_workers _ _ _ w) in *.
  rewrite (bind_Ok _ _ _ _ H1). simpl.
  rewrite first_exception_fold.
  rewrite failed_of_completions.
  destruct (head (failed_synthesis (trace rw))); simpl.
  - now rewrite app_nil_r.
  - destruct (results _); simpl; now rewrite app_nil_r.
Qed.




Lemma submit_events (tasks : list task) :
  requests (map submit_event tasks)
  = map (fun t => (fst t, snd (snd t), voice (fst (snd t)))) tasks
  /\ completions (map submit_event tasks) = []
  /\ played (map submit_event tasks) = []
  /\ Forall (fun ev => is_synthesis ev = true) (map submit_event tasks).
Proof.
  induction tasks as [|t tasks (H1 & H2 & H3 & H4)]; simpl.
  - repeat split; constructor.
  - unfold requests, completions, played in *. simpl.
    rewrite H1, H2, H3. repeat split; auto.
Qed.



End Pipeline.

(** ** Every order of completion, and runs that return *)

Section Schedules.

Context `{B : Backend}.

(** Every order of completion is chosen by some schedule. *)
Lemma completion_order_complete {A} (tasks : list A) :
  forall order : list A,
    Permutation order tasks ->
    exists sched : list nat, completion_order sched tasks = order.
Proof.
  induction tasks as [|t tasks IH]; intros order Hperm.
  - apply Permutation_nil_r in Hperm. subst. now exists [].
  - assert (In t order) as Hin.
    { eapply Permutation_in; [symmetry; exact Hperm | now left]. }
    apply in_split in Hin as (l1 & l2 & ->).
    symmetry in Hperm. apply Permutation_cons_app_inv in Hperm. symmetry in Hperm.
    destruct (IH _ Hperm) as [sched Hsched].
    exists (length l1 :: sched). simpl. rewrite Hsched. unfold insert_at.
    now rewrite take_app_length, drop_app_length.
Qed.

Lemma fill_lookup_notin (done : list (nat * res (list Byte.byte))) :
  forall (children : list future) (i : nat),
    ~ In i (map fst done) -> fill children done !! i = children !! i.
Proof.
  induction done as [|[j r] done IH]; intros children i Hnotin; [reflexivity|].
  unfold fill in *. simpl in *. rewrite IH by tauto.
  apply list_lookup_insert_ne. tauto.
Qed.

(** A future whose task completed is resolved by one of its completions. *)
Lemma fill_lookup (done : list (nat * res (list Byte.byte))) :
  forall (children : list future) (i : nat),
    In i (map fst done) -> i < length children ->
    exists r, In (i, r) done /\ fill children done !! i = Some (Some r).
Proof.
  induction done as [|[j r] done IH]; intros children i Hin Hlt; [destruct Hin|].
  destruct (In_dec Nat.eq_dec i (map fst done)) as [Hlater|Hlast].
  - destruct (IH (<[j := Some r]> children) i Hlater) as (r' & Hr' & Hfill).
    { now rewrite length_insert. }
    exists r'. split; [now right | exact Hfill].
  - destruct Hin as [Heq|Hin]; [|contradiction]. simpl in Heq. subst j.
    exists r. split; [now left|].
    change (fill children ((i, r) :: done))
      with (fill (<[i := Some r]> children) done).
    rewrite fill_lookup_notin by exact Hlast.
    now apply list_lookup_insert_eq.
Qed.

Lemma results_all_Ok (children : list future) :
  Forall (fun fut => exists clip, fut = Some (Ok clip)) children ->
  exists clips, results children = Ok clips.
Proof.
  induction 1 as [|fut children [clip ->] _ [clips IH]]; simpl.
  - now exists [].
  - rewrite IH. simpl. now exists (clip :: clips).
Qed.

Hypothesis synthesis_succeeds :
  forall text v w, exists clip w', text_to_speechbytes text v w = (Ok clip, w').
Hypothesis decoding_succeeds :
  forall clip w, exists soundFile w', sf_SoundFile clip w = (Ok soundFile, w').
Hypothesis reading_succeeds :
  forall soundFile w, exists data w', sf_read soundFile w = (Ok data, w').
Hypothesis playing_succeeds :
  forall data rate w, exists w', sd_play data rate w = (Ok tt, w').

Lemma run_workers_all_Ok (order : list task) :
  forall (children : list future) (first : option exn) (w : World),
    Forall (fun c => exists clip, snd c = Ok clip)
      (completions (trace (run_workers order children first w))).
Proof.
  induction order as [|[i [speaker text]] order IH]; intros children first w; simpl.
  - constructor.
  - unfold bind, text_to_speechbytes_async.
    destruct (synthesis_succeeds text (voice speaker) w) as (clip & w' & ->).
    cbn [outcome final trace]. constructor; [now exists clip | apply IH].
Qed.

Lemma all_Ok_no_failure (done : list (nat * res (list Byte.byte))) :
  Forall (fun c => exists clip, snd c = Ok clip) done ->
  omap (fun r : res (list Byte.byte) =>
          match r with Raise e => Some e | Ok _ => None end)
    (map snd done) = [].
Proof.
  induction 1 as [|[i r] done [clip Hclip] _ IH]; [reflexivity|].
  simpl in Hclip. subst r. exact IH.
Qed.

Lemma play_loop_returns (clips : list (list Byte.byte)) :
  forall w, outcome (play_loop clips w) = Ok tt.
Proof.
  induction clips as [|clip clips IH]; intros w; simpl; [reflexivity|].
  destruct (decoding_succeeds clip w) as (soundFile & w1 & H1).
  destruct (reading_succeeds soundFile w1) as (data & w2 & H2).
  destruct (playing_succeeds data (sf_samplerate soundFile) w2) as (w3 & H3).
  erewrite bind_step by (apply call_Ok; exact H1).
  erewrite bind_step by (apply call_Ok; exact H2).
  erewrite bind_step by (apply call_Ok; exact H3).
  apply IH.
Qed.

(** When the synthesis and playback collaborators do not fail,
  [play_history] returns, whatever the order of completion. *)
Lemma play_history_returns (sched : list nat) (history : list (Speaker * string))
    (w : World) :
  outcome (play_history sched history w) = Ok tt.
Proof.
  unfold play_history. set (tasks := enumerate 0 history).
  pose proof (gather_run sched tasks w) as Hg. cbn zeta in Hg.
  destruct (run_workers_run (completion_order sched tasks)
              (replicate (length tasks) None) None w) as (_ & Horder & _).
  pose proof (run_workers_all_Ok (completion_order sched tasks)
                (replicate (length tasks) None) None w) as HOk.
  cbn zeta in Horder.
  set (rw := run_workers _ _ _ w) in *.
  assert (failed_synthesis (trace rw) = []) as Hnone.
  { rewrite <- failed_of_completions. now apply all_Ok_no_failure. }
  rewrite Hnone in Hg. cbn [head] in Hg.
  match type of Hg with
  | context [results ?children] =>
      destruct (results_all_Ok children) as [clips Hclips]
  end.
  { apply Forall_lookup_2. intros i fut Hfut.
    assert (i < length tasks) as Hlt.
    { apply lookup_lt_Some in Hfut.
      now rewrite fill_length, length_replicate in Hfut. }
    destruct (fill_lookup (completions (trace rw))
                (replicate (length tasks) None) i) as (r & Hin & Hfill).
    - rewrite Horder. apply (Permutation_in i (symmetry (Permutation_map fst
        (completion_order_perm sched tasks)))).
      unfold tasks. rewrite enumerate_fst. apply in_seq.
      unfold tasks in Hlt. rewrite <- (length_map fst), enumerate_fst, length_seq in Hlt.
      lia.
    - now rewrite length_replicate.
    - assert (fut = Some r) as ->.
      { apply (inj Some). rewrite <- Hfut. exact Hfill. }
      rewrite List.Forall_forall in HOk. destruct (HOk _ Hin) as [clip Hclip].
      simpl in Hclip. subst r. now exists clip. }
  rewrite Hclips in Hg.
  unfold bind. rewrite Hg. cbn [outcome final]. apply play_loop_returns.
Qed.

End Schedules.


(** The workers may finish in the reverse order; the clips are still played
    in the order of the History. *)
Example reversed_completion_plays_in_order :
  let history := [(Demo.speaker_of 0 "Alice", "one"); (Demo.speaker_of 1 "Bob", "two");
                  (Demo.speaker_of 2 "Carol", "three")] in
  let r := play_history [2; 1; 0] history Demo.w0 in
  map fst (completions (trace r)) = [2; 1; 0]
  /\ played (trace r)
     = [(list_byte_of_string "Alice/2/one", 44100%Z);
        (list_byte_of_string "Bob/1/two", 44100%Z);
        (list_byte_of_string "Carol/0/three", 44100%Z)].
Proof. vm_compute. split; reflexivity. Qed.

(** ** The empty History *)

Section EmptyHistory.

Context `{B : Backend}.
Variable NAMES : list string.

Lemma call_trace {A} (P : Event -> Prop) (ev : Event)
    (f : World -> res A * World) (w : World) :
  P ev -> (forall e, P (Ev_raised e)) -> Forall P (trace (call ev f w)).
Proof.
  intros Hev Hraised. unfold call. destruct (f w) as [[a|e] w']; simpl;
    repeat constructor; auto.
Qed.

Lemma lift_trace {A} (P : Event -> Prop) (r : res A) (w : World) :
  Forall P (trace (lift r w)).
Proof. destruct r; constructor. Qed.

Lemma speakers_loop_trace (names : list string) :
  forall (i : nat) (speakers : gmap string Speaker) (w : World),
    Forall (fun ev => is_setup ev = true) (trace (speakers_loop i names speakers w)).
Proof.
  induction names as [|n names IH]; intros i speakers w; simpl; [constructor|].
  apply trace_bind_Forall; [now apply call_trace|]. intros found w1.
  apply trace_bind_Forall; [apply lift_trace|]. intros _ w2.
  apply trace_bind_Forall; [now apply call_trace|]. intros v w3.
  apply IH.
Qed.

(** Every name of the list has a speaker once the setup loop returns. *)
Lemma speakers_loop_keys (names : list string) :
  forall (i : nat) (speakers0 speakers : gmap string Speaker)
         (w w1 : World) (t1 : list Event),
    speakers_loop i names speakers0 w
      = {| outcome := Ok speakers; final := w1; trace := t1 |} ->
    forall n, In n names \/ is_Some (speakers0 !! n) -> is_Some (speakers !! n).
Proof.
  induction names as [|n0 names IH]; intros i speakers0 speakers w w1 t1 Hrun n Hn.
  - simpl in Hrun. unfold ret in Hrun. injection Hrun as <- _ _.
    destruct Hn as [[]|Hn]; exact Hn.
  - simpl in Hrun.
    apply bind_inv_Ok in Hrun as (found & wa & ta & tb & _ & Hrun & _).
    apply bind_inv_Ok in Hrun as (u & wb & tc & td & _ & Hrun & _).
    apply bind_inv_Ok in Hrun as (v & wc & te & tf & _ & Hrun & _).
    eapply IH; [exact Hrun|].
    destruct (decide (n0 = n)) as [->|Hne].
    + right. rewrite lookup_insert_eq. eauto.
    + rewrite lookup_insert_ne by exact Hne.
      destruct Hn as [[Heq|Hin]|Hn]; [contradiction| now left | now right].
Qed.

(** The loop only logs warnings and leaves the world alone, whatever the
    lines. *)
Lemma history_loop_trace (speakers : gmap string Speaker) (lines : list string) :
  forall history history_html w,
    Forall (fun ev => is_warning ev = true)
      (trace (history_loop NAMES speakers lines history history_html w))
    /\ final (history_loop NAMES speakers lines history history_html w) = w.
Proof.
  induction lines as [|line lines IH]; intros history history_html w; simpl.
  - split; [constructor | reflexivity].
  - destruct (line_body NAMES speakers line) as [[[speaker text]|]|e]; try apply IH.
    destruct e; try (split; [constructor | reflexivity]).
    unfold bind, emit. simpl.
    destruct (IH history history_html w) as [H1 H2].
    destruct (outcome (history_loop NAMES speakers lines history history_html w));
      simpl; split; auto; repeat constructor; auto.
Qed.


(** The HTML handed to the loop is a prefix of the HTML it returns; the
    rest of the run does not depend on it. *)
Lemma history_loop_html (speakers : gmap string Speaker) (lines : list string) :
  forall history history_html w,
    history_loop NAMES speakers lines history history_html w
    = let r0 := history_loop NAMES speakers lines history [] w in
      {| outcome := match outcome r0 with
                    | Ok built => Ok (fst built, history_html ++ snd built)
                    | Raise e => Raise e
                    end;
         final := final r0;
         trace := trace r0 |}.
Proof.
  induction lines as [|line lines IH]; intros history history_html w; simpl.
  - unfold ret. now rewrite app_nil_r.
  - destruct (line_body NAMES speakers line) as [[[speaker text]|]|e].
    + rewrite (IH _ (history_html ++ _)), (IH _ [_]). simpl.
      destruct (outcome (history_loop NAMES speakers lines _ [] w)) as [[h html]|e];
        simpl; [now rewrite <- app_assoc | reflexivity].
    + apply IH.
    + destruct e; try reflexivity.
      unfold bind, emit. simpl. rewrite IH. simpl.
      destruct (outcome (history_loop NAMES speakers lines history [] w)); reflexivity.
Qed.

Lemma omap_none {A} (f : Event -> option A) (tr : list Event) :
  Forall (fun ev => f ev = None) tr -> omap f tr = [].
Proof.
  induction 1 as [|ev tr Hev _ IH]; simpl; [reflexivity|].
  now rewrite Hev.
Qed.

Lemma quiet_setup (tr : list Event) :
  Forall (fun ev => is_setup ev = true) tr -> requests tr = [] /\ played tr = [].
Proof.
  intros H. split; apply omap_none; eapply List.Forall_impl; [|exact H| |exact H];
    intros ev Hev; destruct ev; try discriminate Hev; reflexivity.
Qed.

Lemma quiet_warnings (tr : list Event) :
  Forall (fun ev => is_warning ev = true) tr -> requests tr = [] /\ played tr = [].
Proof.
  intros H. split; apply omap_none; eapply List.Forall_impl; [|exact H| |exact H];
    intros ev Hev; destruct ev; try discriminate Hev; reflexivity.
Qed.



End EmptyHistory.

(** ** Provisioning twice *)

Section Labels.

Lemma append_cons (c : ascii) (s t : string) :
  String c s +:+ t = String c (s +:+ t).
Proof. reflexivity. Qed.

Lemma digits_no_dot (u : Decimal.uint) :
  PyStr.contains "." (NilEmpty.string_of_uint u) = false.
Proof. induction u; simpl; auto. Qed.

Lemma of_nat_no_dot (i : nat) : PyStr.contains "." (PyStr.of_nat i) = false.
Proof.
  unfold PyStr.of_nat, NilZero.string_of_uint.
  destruct (Nat.to_uint i) eqn:E; try reflexivity; rewrite <- E; apply digits_no_dot.
Qed.

Lemma contains_append (c : ascii) (s t : string) :
  PyStr.contains c (s +:+ String c t) = true.
Proof.
  induction s as [|a s IH].
  - simpl. now rewrite Ascii.eqb_refl.
  - rewrite append_cons. simpl. rewrite IH. now destruct (Ascii.eqb a c).
Qed.

(** What stands before the last dot of a string is determined by it. *)
Lemma before_last_dot (d1 d2 : string) :
  PyStr.contains "." d1 = false -> PyStr.contains "." d2 = false ->
  forall s1 s2 : string,
    s1 +:+ String "." d1 = s2 +:+ String "." d2 -> s1 = s2.
Proof.
  intros H1 H2. induction s1 as [|a s1 IH]; intros [|b s2] Heq.
  - reflexivity.
  - rewrite append_cons in Heq. change ("" +:+ String "." d1) with (String "." d1) in Heq.
    injection Heq as <- Heq. rewrite Heq, contains_append in H1. discriminate H1.
  - rewrite append_cons in Heq. change ("" +:+ String "." d2) with (String "." d2) in Heq.
    injection Heq as -> Heq. rewrite <- Heq, contains_append in H2. discriminate H2.
  - rewrite !append_cons in Heq. injection Heq as -> Heq. f_equal. now apply IH.
Qed.

(** The label of an extraction names its persona. *)
Lemma label_inj (n nm : string) (i j : nat) :
  "audio." +:+ n +:+ "." +:+ PyStr.of_nat i
  = "audio." +:+ nm +:+ "." +:+ PyStr.of_nat j ->
  n = nm.
Proof.
  intros Heq. apply (inj (String.app "audio.")) in Heq.
  eapply before_last_dot; [| |exact Heq]; apply of_nat_no_dot.
Qed.

End Labels.

Section Provisioning.

Context `{B : Backend}.

(** Composition of runs that keep an invariant [P] of the world and
    emit only events of kind [E]. *)
Lemma inv_bind {A C} (P : World -> Prop) (E : Event -> Prop)
    (m : M A) (k : A -> M C) (w : World) :
  Forall E (trace (m w)) /\ P (final (m w)) ->
  (forall a w', P w' -> outcome (m w) = Ok a ->
     Forall E (trace (k a w')) /\ P (final (k a w'))) ->
  Forall E (trace (bind m k w)) /\ P (final (bind m k w)).
Proof.
  intros [Hm1 Hm2] Hk. unfold bind.
  destruct (outcome (m w)) as [a|e]; simpl; [|auto].
  destruct (Hk a _ Hm2 eq_refl) as [Hk1 Hk2].
  split; [now apply Forall_app | exact Hk2].
Qed.

Lemma inv_call {A} (P : World -> Prop) (E : Event -> Prop) (ev : Event)
    (f : World -> res A * World) (w : World) :
  E ev -> (forall e, E (Ev_raised e)) -> P (snd (f w)) ->
  Forall E (trace (call ev f w)) /\ P (final (call ev f w)).
Proof.
  intros Hev Hraised HP. unfold call. destruct (f w) as [[a|e] w']; simpl in *;
    split; auto; repeat constructor; auto.
Qed.

Lemma inv_lift {A} (P : World -> Prop) (E : Event -> Prop) (r : res A) (w : World) :
  P w -> Forall E (trace (lift r w)) /\ P (final (lift r w)).
Proof. intros HP. destruct r; simpl; split; auto; constructor. Qed.

Variable nm : string.
Hypothesis Hkeeps : keeps_voices.

(** Extractions for another persona leave [nm] alone. *)
Lemma videos_loop_skips (n : string) (videos : list yaml) :
  n <> nm ->
  forall (i : nat) (audio_paths : list Path) (w : World),
    provisioned nm w ->
    Forall (fun ev => ~ provisions nm ev) (trace (videos_loop n i videos audio_paths w))
    /\ provisioned nm (final (videos_loop n i videos audio_paths w)).
Proof.
  intros Hne. induction videos as [|video videos IH]; intros i audio_paths w Hw.
  - simpl. split; [constructor | exact Hw].
  - simpl. destruct video; try (split; [constructor | exact Hw]).
    apply inv_bind; [now apply inv_lift|]. intros _ w1 Hw1 _.
    apply inv_bind; [now apply inv_lift|]. intros url w2 Hw2 _.
    apply inv_bind.
    + apply inv_call; [|auto|now apply Hkeeps].
      intros [j Hj]. apply label_inj in Hj. contradiction.
    + intros output_path w3 Hw3 _. now apply IH.
Qed.

(** The loop over the registry never provisions a persona whose voice
    exists, and leaves the voice in place. *)
Lemma voices_loop_skips (items : list (yaml * yaml)) :
  forall w : World,
    provisioned nm w ->
    Forall (fun ev => ~ provisions nm ev) (trace (voices_loop items w))
    /\ provisioned nm (final (voices_loop items w)).
Proof.
  induction items as [|[key videos] items IH]; intros w Hw.
  - simpl. split; [constructor | exact Hw].
  - simpl. destruct key as [| | | |n| | |]; try (split; [constructor | exact Hw]).
    destruct videos as [| | | | |videos| |]; try (split; [constructor | exact Hw]).
    apply inv_bind.
    { apply inv_call; [simpl; tauto | simpl; tauto | now apply Hkeeps]. }
    intros found w1 Hw1 Hfound.
    destruct found as [v|]; simpl; [now apply IH|].
    assert (n <> nm) as Hne.
    { intros ->. destruct Hw as (v & w' & Hv).
      destruct (call_outcome (Ev_check_voice_exists nm) (check_voice_exists nm) w)
        as [Hout _].
      rewrite Hout, Hv in Hfound. discriminate Hfound. }
    apply inv_bind; [now apply videos_loop_skips|].
    intros audio_paths w2 Hw2 _.
    apply inv_bind.
    { apply inv_call; [simpl; exact Hne | simpl; tauto | now apply Hkeeps]. }
    intros _ w3 Hw3 _. now apply IH.
Qed.

End Provisioning.

Section Idempotence.

Context `{B : Backend}.
Hypothesis Hkeeps : keeps_voices.

Lemma ready_step (w : World) (n : string) (items : list (yaml * yaml)) :
  Forall (ready w) items ->
  Forall (ready (snd (check_voice_exists n w))) items.
Proof.
  intros H. eapply List.Forall_impl; [|exact H].
  intros kv (n' & videos & -> & Hn'). exists n', videos. split; [reflexivity|].
  now apply Hkeeps.
Qed.

(** A registry whose personas all have their voice: the loop only looks
    the voices up. *)
Lemma voices_loop_ready (items : list (yaml * yaml)) :
  forall w : World,
    Forall (ready w) items ->
    outcome (voices_loop items w) = Ok tt
    /\ Forall (fun ev => is_provisioning ev = false) (trace (voices_loop items w))
    /\ Forall (ready (final (voices_loop items w))) items.
Proof.
  induction items as [|kv items IH]; intros w Hready.
  - simpl. repeat split; constructor.
  - inversion Hready as [|kv' items' Hkv Hitems]; subst.
    pose proof (ready_step w) as Hstep.
    destruct Hkv as (n & videos & -> & (v & w1 & Hv)).
    simpl. erewrite bind_step by (apply call_Ok; exact Hv). simpl.
    specialize (Hstep n). rewrite Hv in Hstep. simpl in Hstep.
    destruct (IH w1 (Hstep items Hitems)) as (H1 & H2 & H3).
    split; [exact H1|]. split; [constructor; [reflexivity | exact H2]|].
    constructor; [|exact H3].
    exists n, videos. split; [reflexivity|].
    assert (Forall (ready w1) ((YStr n, YList videos) :: items)) as Hall.
    { apply (Hstep ((YStr n, YList videos) :: items)), Hready. }
    clear -Hall Hkeeps.
    (* the rest of the loop keeps the voice of [n] *)
    inversion Hall as [|kv' items' (n' & videos' & Heq & Hn) _]; subst.
    injection Heq as <- <-.
    now apply (voices_loop_skips n Hkeeps).
Qed.

Lemma make_voices_body_skips (nm voices_yaml : string) (w : World) :
  provisioned nm w ->
  Forall (fun ev => ~ provisions nm ev) (trace (make_voices_body voices_yaml w))
  /\ provisioned nm (final (make_voices_body voices_yaml w)).
Proof.
  intros Hw. unfold make_voices_body.
  apply inv_bind; [now apply inv_lift|].
  intros voice_dict w1 Hw1 _.
  destruct voice_dict; try (split; [constructor | exact Hw1]).
  now apply voices_loop_skips.
Qed.

Lemma make_voices_body_ready (voices_yaml : string) (items : list (yaml * yaml))
    (w : World) :
  yaml_safe_load voices_yaml = Ok (YDict items) ->
  Forall (ready w) items ->
  outcome (make_voices_body voices_yaml w) = Ok tt
  /\ Forall (fun ev => is_provisioning ev = false)
       (trace (make_voices_body voices_yaml w))
  /\ Forall (ready (final (make_voices_body voices_yaml w))) items.
Proof.
  intros Hload Hready. unfold make_voices_body.
  rewrite Hload, bind_lift_Ok. now apply voices_loop_ready.
Qed.

(** C5.  Provisioning is idempotent for a persona whose voice exists,
    provided the collaborators never remove a voice.  In two successive
    calls of [make_voices] on the same document, neither call registers
    that persona or extracts audio for it, and its voice is still there
    afterwards.  When every persona of the document already has its voice
    (and the entries are well formed), both calls return "Success" and
    neither registers or extracts anything. *)
Theorem make_voices_idempotent (voices_yaml nm : string) (w : World) :
  provisioned nm w ->
  let r1 := make_voices voices_yaml w in
  let r2 := make_voices voices_yaml (final r1) in
  Forall (fun ev => ~ provisions nm ev) (trace r1)
  /\ Forall (fun ev => ~ provisions nm ev) (trace r2)
  /\ provisioned nm (final r2)
  /\ (forall items,
        yaml_safe_load voices_yaml = Ok (YDict items) ->
        Forall (ready w) items ->
        outcome r1 = Ok "Success" /\ outcome r2 = Ok "Success"
        /\ Forall (fun ev => is_provisioning ev = false) (trace r1 ++ trace r2)).
Proof.
  intros Hw r1 r2. subst r1 r2. rewrite !make_voices_unfold. cbn [outcome final trace].
  destruct (make_voices_body_skips nm voices_yaml w Hw) as [S1 P1].
  destruct (make_voices_body_skips nm voices_yaml _ P1) as [S2 P2].
  split; [exact S1|]. split; [exact S2|]. split; [exact P2|].
  intros items Hload Hready.
  destruct (make_voices_body_ready voices_yaml items w Hload Hready) as (O1 & Q1 & R1).
  destruct (make_voices_body_ready voices_yaml items _ Hload R1) as (O2 & Q2 & _).
  rewrite O1, O2. split; [reflexivity|]. split; [reflexivity|].
  now apply Forall_app.
Qed.

End Idempotence.

(** The test double never removes a voice. *)
Lemma demo_keeps_voices : keeps_voices (B := Demo.backend).
Proof.
  intros nm w (v & w' & Hv). simpl in Hv.
  assert (Demo.knows nm w = true) as Hknows.
  { destruct (Demo.knows nm w); [reflexivity | discriminate Hv]. }
  assert (forall w1, Demo.knows nm w1 = true -> provisioned (B := Demo.backend) nm w1) as Hprov.
  { intros w1 H1. exists nm, w1. simpl. now rewrite H1. }
  repeat split; intros.
  - now apply Hprov.
  - apply Hprov. simpl. destruct (Demo.knows n w); [exact Hknows|].
    destruct paths; simpl; [|exact Hknows].
    unfold Demo.knows, Demo.with_voice, str_in in *. simpl.
    rewrite Hknows. apply orb_true_r.
  - now apply Hprov.
Qed.

Lemma make_voices_idempotent_witness :
  let r1 := make_voices "Alice: [{url: a}]" Demo.w0 in
  let r2 := make_voices "Alice: [{url: a}]" (final r1) in
  outcome r1 = Ok "Success" /\ outcome r2 = Ok "Success"
  /\ Forall (fun ev => is_provisioning ev = false) (trace r1 ++ trace r2).
Proof.
  intros r1 r2.
  refine (proj2 (proj2 (proj2 (make_voices_idempotent demo_keeps_voices
                                 "Alice: [{url: a}]" "Alice" Demo.w0 _)))
            [(YStr "Alice", YList [YDict [(YStr "url", YStr "a")]])] eq_refl _).
  - exists "Alice", Demo.w0. reflexivity.
  - constructor; [|constructor].
    exists "Alice", [YDict [(YStr "url", YStr "a")]]. split; [reflexivity|].
    exists "Alice", Demo.w0. reflexivity.
Defined.

(** A registry with one persona that has its voice and one that has not:
    the first call provisions the second persona only, the second call
    provisions nobody. *)
Example provisioning_twice :
  let doc := "{Alice: [{url: a}], Dave: [{url: u}, {url: v, duration: 60}]}" in
  let r1 := make_voices doc Demo.w0 in
  let r2 := make_voices doc (final r1) in
  trace r1 = [Ev_check_voice_exists "Alice"; Ev_check_voice_exists "Dave";
              Ev_extract_audio (YStr "u") "audio.Dave.0" (YInt 0) (YInt 120);
              Ev_extract_audio (YStr "v") "audio.Dave.1" (YInt 0) (YInt 60);
              Ev_get_make_voice "Dave" (Some ["audio.Dave.0"; "audio.Dave.1"])]
  /\ trace r2 = [Ev_check_voice_exists "Alice"; Ev_check_voice_exists "Dave"]
  /\ outcome r1 = Ok "Success" /\ outcome r2 = Ok "Success".
Proof. vm_compute. repeat split; reflexivity. Qed.

(** ** Failures reach the caller *)

Section Failures.

Context `{B : Backend}.
Variable NAMES : list string.

Lemma raised_app (t1 t2 : list Event) :
  raised (t1 ++ t2) = raised t1 ++ raised t2.
Proof. apply omap_app. Qed.

Lemma failed_synthesis_app (t1 t2 : list Event) :
  failed_synthesis (t1 ++ t2) = failed_synthesis t1 ++ failed_synthesis t2.
Proof. apply omap_app. Qed.

Lemma accounted_ret {A} (a : A) (w : World) : accounted (ret a w).
Proof. split; reflexivity. Qed.

Lemma accounted_raise {A} (e : exn) (w : World) : accounted (raise (A := A) e w).
Proof. left. split; reflexivity. Qed.

Lemma accounted_lift {A} (r : res A) (w : World) : accounted (lift r w).
Proof. destruct r; [apply accounted_ret | apply accounted_raise]. Qed.

Lemma accounted_emit (ev : Event) (w : World) : quiet ev -> accounted (emit ev w).
Proof. intros Hq. exact Hq. Qed.

Lemma accounted_call {A} (ev : Event) (f : World -> res A * World) (w : World) :
  quiet ev -> accounted (call ev f w).
Proof.
  intros [Hr Hf]. unfold accounted, call.
  destruct (f w) as [[a|e] w']; cbn [outcome trace].
  - split; assumption.
  - right. left.
    change [ev; Ev_raised e] with ([ev] ++ [Ev_raised e]).
    rewrite raised_app, failed_synthesis_app, Hr, Hf. split; reflexivity.
Qed.

Lemma accounted_bind {A C} (m : M A) (k : A -> M C) (w : World) :
  accounted (m w) -> (forall a w', accounted (k a w')) -> accounted (bind m k w).
Proof.
  intros Hm Hk. unfold bind. unfold accounted in Hm.
  destruct (outcome (m w)) as [a|e] eqn:Hout.
  - destruct Hm as [Hr Hf]. specialize (Hk a (final (m w))).
    unfold accounted in *. cbn [outcome trace].
    rewrite raised_app, failed_synthesis_app, Hr, Hf. exact Hk.
  - unfold accounted. cbn [outcome trace]. exact Hm.
Qed.

Lemma accounted_reraise {A} (body : M A) (w : World) :
  accounted (body w) -> accounted (try_except body (fun e => raise e) w).
Proof.
  intros Hb. unfold try_except. unfold accounted in *.
  destruct (outcome (body w)) as [a|e] eqn:Hout.
  - now rewrite Hout.
  - cbn [outcome trace raise]. now rewrite app_nil_r.
Qed.

Ltac quiet_event := split; reflexivity.

Lemma speakers_loop_accounted (names : list string) :
  forall i speakers w, accounted (speakers_loop i names speakers w).
Proof.
  induction names as [|n names IH]; intros i speakers w; simpl.
  - apply accounted_ret.
  - apply accounted_bind; [apply accounted_call; quiet_event|]. intros found w1.
    apply accounted_bind; [apply accounted_lift|]. intros _ w2.
    apply accounted_bind; [apply accounted_call; quiet_event|]. intros v w3.
    apply IH.
Qed.

Lemma history_loop_accounted (speakers : gmap string Speaker) (lines : list string) :
  forall history history_html w,
    accounted (history_loop NAMES speakers lines history history_html w).
Proof.
  induction lines as [|line lines IH]; intros history history_html w; simpl.
  - apply accounted_ret.
  - destruct (line_body NAMES speakers line) as [[[speaker text]|]|e]; try apply IH.
    destruct e; try apply accounted_raise.
    apply accounted_bind; [apply accounted_emit; quiet_event|]. intros _ w1. apply IH.
Qed.

Lemma play_loop_accounted (clips : list (list Byte.byte)) :
  forall w, accounted (play_loop clips w).
Proof.
  induction clips as [|clip clips IH]; intros w; simpl.
  - apply accounted_ret.
  - apply accounted_bind; [apply accounted_call; quiet_event|]. intros soundFile w1.
    apply accounted_bind; [apply accounted_call; quiet_event|]. intros data w2.
    apply accounted_bind; [apply accounted_call; quiet_event|]. intros _ w3.
    apply IH.
Qed.

Lemma submit_quiet (tasks : list task) :
  raised (map submit_event tasks) = []
  /\ failed_synthesis (map submit_event tasks) = [].
Proof.
  induction tasks as [|t tasks [H1 H2]]; [split; reflexivity|].
  change (map submit_event (t :: tasks))
    with ([submit_event t] ++ map submit_event tasks).
  rewrite raised_app, failed_synthesis_app, H1, H2. split; reflexivity.
Qed.

(** The gather raises the exception of the first worker that failed. *)
Lemma gather_accounted (sched : list nat) (tasks : list task) (w : World) :
  accounted (gather sched tasks w).
Proof.
  rewrite gather_run. cbn zeta.
  destruct (run_workers_run (completion_order sched tasks)
              (replicate (length tasks) None) None w)
    as (_ & _ & _ & _ & Hraised & _).
  cbn zeta in Hraised.
  set (rw := run_workers _ _ _ w) in *.
  destruct (submit_quiet tasks) as [S1 S2].
  assert (raised (map submit_event tasks ++ trace rw) = []) as R.
  { now rewrite raised_app, S1, Hraised. }
  assert (failed_synthesis (map submit_event tasks ++ trace rw)
          = failed_synthesis (trace rw)) as F.
  { now rewrite failed_synthesis_app, S2. }
  unfold accounted. cbn [outcome trace]. rewrite R, F.
  destruct (head (failed_synthesis (trace rw))) as [e|] eqn:Hhead.
  - right. right. split; reflexivity.
  - assert (failed_synthesis (trace rw) = []) as ->
      by (destruct (failed_synthesis (trace rw)); [reflexivity | discriminate Hhead]).
    destruct (results _); [split; reflexivity | left; split; reflexivity].
Qed.

Lemma play_history_accounted (sched : list nat) (history : list (Speaker * string))
    (w : World) :
  accounted (play_history sched history w).
Proof.
  unfold play_history. apply accounted_bind; [apply gather_accounted|].
  intros clips w1. apply play_loop_accounted.
Qed.

Lemma conversation_accounted
    (sched : list nat) (names : list string) (iam : string) (audio : Audio)
    (model : string) (max_tokens temperature timeout samplerate channels : Number)
    (w : World) :
  accounted (conversation NAMES sched names iam audio model max_tokens temperature
               timeout samplerate channels w).
Proof.
  unfold conversation.
  apply accounted_bind; [apply accounted_lift|]. intros _ w1.
  apply accounted_bind; [apply speakers_loop_accounted|]. intros speakers w2.
  apply accounted_bind; [apply accounted_call; quiet_event|]. intros request w3.
  apply accounted_bind; [apply accounted_lift|]. intros me w4.
  apply accounted_bind; [apply accounted_call; quiet_event|]. intros response w5.
  apply accounted_bind; [apply history_loop_accounted|]. intros built w6.
  apply accounted_bind; [apply play_history_accounted|]. intros _ w7.
  apply accounted_ret.
Qed.

Lemma videos_loop_accounted (n : string) (videos : list yaml) :
  forall i audio_paths w, accounted (videos_loop n i videos audio_paths w).
Proof.
  induction videos as [|video videos IH]; intros i audio_paths w; simpl.
  - apply accounted_ret.
  - destruct video; try apply accounted_raise.
    apply accounted_bind; [apply accounted_lift|]. intros _ w1.
    apply accounted_bind; [apply accounted_lift|]. intros url w2.
    apply accounted_bind; [apply accounted_call; quiet_event|]. intros output_path w3.
    apply IH.
Qed.

Lemma voices_loop_accounted (items : list (yaml * yaml)) :
  forall w, accounted (voices_loop items w).
Proof.
  induction items as [|[key videos] items IH]; intros w; simpl.
  - apply accounted_ret.
  - destruct key; try apply accounted_raise.
    destruct videos; try apply accounted_raise.
    apply accounted_bind; [apply accounted_call; quiet_event|]. intros found w1.
    destruct (is_not_None found); [apply IH|].
    apply accounted_bind; [apply videos_loop_accounted|]. intros audio_paths w2.
    apply accounted_bind; [apply accounted_call; quiet_event|]. intros _ w3.
    apply IH.
Qed.

Lemma make_voices_accounted (voices_yaml : string) (w : World) :
  accounted (make_voices voices_yaml w).
Proof.
  unfold make_voices.
  apply accounted_bind; [|intros; apply accounted_ret].
  apply accounted_reraise. unfold make_voices_body.
  apply accounted_bind; [apply accounted_lift|]. intros voice_dict w1.
  destruct voice_dict; try apply accounted_raise.
  apply voices_loop_accounted.
Qed.

(** What [accounted] gives the caller. *)
Lemma accounted_propagates {A} (r : Run A) :
  accounted r ->
  (forall e, In e (raised (trace r)) -> outcome r = Raise e)
  /\ (forall e, head (failed_synthesis (trace r)) = Some e -> outcome r = Raise e)
  /\ length (raised (trace r)) <= 1.
Proof.
  unfold accounted. destruct (outcome r) as [a|e0].
  - intros [-> ->]. repeat split; [intros e [] | discriminate | simpl; lia].
  - intros [[-> ->]|[[-> ->]|[-> Hhead]]].
    + repeat split; [intros e [] | discriminate | simpl; lia].
    + repeat split; [intros e [->|[]]; reflexivity | discriminate | simpl; lia].
    + repeat split; [intros e [] | | simpl; lia].
      intros e He. rewrite Hhead in He. now injection He as ->.
Qed.

(** [make_voices] starts no synthesis worker. *)
Lemma videos_loop_no_worker (n : string) (videos : list yaml) :
  forall i audio_paths w,
    Forall (fun ev => failed_synthesis [ev] = [])
      (trace (videos_loop n i videos audio_paths w)).
Proof.
  induction videos as [|video videos IH]; intros i audio_paths w; simpl.
  - constructor.
  - destruct video; try constructor.
    apply trace_bind_Forall; [apply lift_trace|]. intros _ w1.
    apply trace_bind_Forall; [apply lift_trace|]. intros url w2.
    apply trace_bind_Forall; [apply call_trace; reflexivity|]. intros p w3.
    apply IH.
Qed.

Lemma voices_loop_no_worker (items : list (yaml * yaml)) :
  forall w, Forall (fun ev => failed_synthesis [ev] = []) (trace (voices_loop items w)).
Proof.
  induction items as [|[key videos] items IH]; intros w; simpl.
  - constructor.
  - destruct key; try constructor. destruct videos; try constructor.
    apply trace_bind_Forall; [apply call_trace; reflexivity|]. intros found w1.
    destruct (is_not_None found); [apply IH|].
    apply trace_bind_Forall; [apply videos_loop_no_worker|]. intros audio_paths w2.
    apply trace_bind_Forall; [apply call_trace; reflexivity|]. intros _ w3.
    apply IH.
Qed.

Lemma make_voices_no_worker (voices_yaml : string) (w : World) :
  failed_synthesis (trace (make_voices voices_yaml w)) = [].
Proof.
  rewrite make_voices_unfold. cbn [trace].
  assert (Forall (fun ev => failed_synthesis [ev] = [])
            (trace (make_voices_body voices_yaml w))) as Hnone.
  { unfold make_voices_body.
    apply trace_bind_Forall; [apply lift_trace|]. intros voice_dict w1.
    destruct voice_dict; try constructor. apply voices_loop_no_worker. }
  induction Hnone as [|ev tr Hev _ IH]; [reflexivity|].
  change (ev :: tr) with ([ev] ++ tr).
  now rewrite failed_synthesis_app, Hev, IH.
Qed.

(** C6, as the code has it.  The exception a collaborator raises reaches
    the caller of [conversation] and of [make_voices] unchanged: when a
    collaborator called directly (voice lookup, registration,
    transcription, text generation, audio extraction, decoding,
    playback) raises [e], the call raises [e], and at most one such
    failure happens in a call; when synthesis workers fail, the call
    raises the exception of the first of them to fail. *)
Theorem collaborator_failures_propagate
    (sched : list nat) (names : list string) (iam : string) (audio : Audio)
    (model voices_yaml : string)
    (max_tokens temperature timeout samplerate channels : Number)
    (w w' : World) :
  let rc := conversation NAMES sched names iam audio model max_tokens temperature
              timeout samplerate channels w in
  let rv := make_voices voices_yaml w' in
  ((forall e, In e (raised (trace rc)) -> outcome rc = Raise e)
   /\ (forall e, head (failed_synthesis (trace rc)) = Some e -> outcome rc = Raise e)
   /\ length (raised (trace rc)) <= 1)
  /\ ((forall e, In e (raised (trace rv)) -> outcome rv = Raise e)
      /\ failed_synthesis (trace rv) = []
      /\ length (raised (trace rv)) <= 1).
Proof.
  intros rc rv. split.
  - apply accounted_propagates, conversation_accounted.
  - destruct (accounted_propagates rv (make_voices_accounted voices_yaml w'))
      as (H1 & _ & H3).
    split; [exact H1|]. split; [apply make_voices_no_worker | exact H3].
Qed.

End Failures.

(** C6, as stated, fails on the code: no reading of the exception tells a
    validation failure from a collaborator failure.  The first call is
    refused because Bob is not among the names; in the second the
    transcription fails with an assertion of its own.  Both raise the same
    exception. *)
Lemma errors_are_not_typed :
  ~ exists classify : exn -> error_kind,
      errors_are_typed (B := Demo.backend) Demo.NAMES3 classify.
Proof.
  intros [classify Htyped]. unfold errors_are_typed in Htyped.
  pose (e := AssertionError "I am Bob but I don't have a voice").
  destruct (Htyped [] ["Alice"] "Bob" tt "gpt-3.5-turbo" 75%Z 1%Z 10%Z 48000%Z 1%Z
              Demo.w0 e eq_refl) as [Hvalidation _].
  destruct (Htyped [] ["Alice"] "Alice" tt "gpt-3.5-turbo" 75%Z 1%Z 10%Z 48000%Z 1%Z
              (Demo.deaf e) e eq_refl) as [_ Hcollaborator].
  specialize (Hvalidation eq_refl).
  assert (classify e = CollaboratorError) as Hc.
  { apply Hcollaborator. vm_compute. left. reflexivity. }
  rewrite Hvalidation in Hc. discriminate Hc.
Qed.

Lemma collaborator_failures_propagate_witness :
  outcome (conversation (B := Demo.backend) Demo.NAMES3 [] ["Alice"] "Alice" tt "gpt-3.5-turbo"
             75%Z 1%Z 10%Z 48000%Z 1%Z (Demo.deaf (OtherError "APIError" "timeout")))
  = Raise (OtherError "APIError" "timeout")
  /\ outcome (conversation (B := Demo.backend) Demo.NAMES3 [1] ["Alice"; "Bob"; "Carol"] "Alice" tt
                "gpt-3.5-turbo" 75%Z 1%Z 10%Z 48000%Z 1%Z (Demo.mute "Good to see you"))
     = Raise (OtherError "APIError" "Good to see you").
Proof.
  split.
  - apply (proj1 (proj1 (collaborator_failures_propagate (B := Demo.backend) Demo.NAMES3 [] ["Alice"]
                           "Alice" tt "gpt-3.5-turbo" "" 75%Z 1%Z 10%Z 48000%Z 1%Z
                           (Demo.deaf (OtherError "APIError" "timeout")) Demo.w0))).
    vm_compute. left. reflexivity.
  - apply (proj1 (proj2 (proj1 (collaborator_failures_propagate (B := Demo.backend) Demo.NAMES3 [1]
                                  ["Alice"; "Bob"; "Carol"] "Alice" tt "gpt-3.5-turbo" ""
                                  75%Z 1%Z 10%Z 48000%Z 1%Z
                                  (Demo.mute "Good to see you") Demo.w0)))).
    vm_compute. reflexivity.
Defined.

(** When two workers fail, only the first failure reaches the caller. *)
Example second_failure_is_dropped :
  let history := [(Demo.speaker_of 0 "Alice", "same"); (Demo.speaker_of 1 "Bob", "same")] in
  let r := play_history [] history (Demo.mute "same") in
  failed_synthesis (trace r)
  = [OtherError "APIError" "same"; OtherError "APIError" "same"]
  /\ outcome r = Raise (OtherError "APIError" "same")
  /\ played (trace r) = [].
Proof. vm_compute. repeat split; reflexivity. Qed.

(** ** The theorems at work on the test double *)

Lemma conversation_validates_witness :
  conversation (B := Demo.backend) Demo.NAMES3 [] ["Alice"] "Bob" tt "gpt-3.5-turbo"
    75%Z 1%Z 10%Z 48000%Z 1%Z Demo.w0
  = {| outcome := Raise (AssertionError "I am Bob but I don't have a voice");
       final := Demo.w0; trace := [] |}
  /\ conversation (B := Demo.backend) Demo.NAMES3 [] ["Alice"; "Zed"; "Bob"] "Alice" tt
       "gpt-3.5-turbo" 75%Z 1%Z 10%Z 48000%Z 1%Z Demo.w0
     = {| outcome := Raise (AssertionError "Voice Zed does not exist");
          final := Demo.w0;
          trace := [Ev_check_voice_exists "Alice"; Ev_get_make_voice "Alice" None;
                    Ev_check_voice_exists "Zed"] |}.
Proof.
  split.
  - apply (proj1 (conversation_validates (B := Demo.backend) Demo.NAMES3 []
                    ["Alice"] "Bob" tt "gpt-3.5-turbo" 75%Z 1%Z 10%Z 48000%Z 1%Z Demo.w0)).
    reflexivity.
  - apply (proj2 (conversation_validates (B := Demo.backend) Demo.NAMES3 []
                    ["Alice"; "Zed"; "Bob"] "Alice" tt "gpt-3.5-turbo"
                    75%Z 1%Z 10%Z 48000%Z 1%Z Demo.w0)
             ["Alice"] ["Bob"] "Zed"
             (<["Alice" := Demo.speaker_of 0 "Alice"]> ∅) Demo.w0 Demo.w0
             [Ev_check_voice_exists "Alice"; Ev_get_make_voice "Alice" None]).
    + reflexivity.
    + reflexivity.
    + reflexivity.
    + reflexivity.
Defined.


(** A whole turn on the transcript example: the two valid lines are
    synthesised with the voices of Alice and Carol, and the HTML holds the
    utterance and the two lines. *)
Example conversation_example :
  let r := conversation (B := Demo.backend) Demo.NAMES3 [1] ["Alice"; "Bob"; "Carol"]
             "Alice" tt "gpt-3.5-turbo" 75%Z 1%Z 10%Z 48000%Z 1%Z Demo.w0 in
  outcome r = Ok (bubble "#FFA07A" "Hi all" +:+ bubble "#FFA07A" "Hello there"
                    +:+ bubble "#AFEEEE" "Good to see you")
  /\ requests (trace r) = [(0, "Hello there", "Alice"); (1, "Good to see you", "Carol")]
  /\ map fst (completions (trace r)) = [1; 0]
  /\ length (played (trace r)) = 2.
Proof. vm_compute. repeat split; reflexivity. Qed.

(** * Further properties of the handlers *)

(** ** How runs compose *)

Section MoreRunLemmas.

Context `{B : Backend}.

Lemma run_eta {A} (r : Run A) :
  r = {| outcome := outcome r; final := final r; trace := trace r |}.
Proof. now destruct r. Qed.

Lemma bind_outcome {A C} (m : M A) (k : A -> M C) (w : World) :
  outcome (bind m k w)
  = match outcome (m w) with
    | Ok a => outcome (k a (final (m w)))
    | Raise e => Raise e
    end.
Proof. unfold bind. now destruct (outcome (m w)). Qed.

Lemma bind_trace {A C} (m : M A) (k : A -> M C) (w : World) :
  trace (bind m k w)
  = trace (m w) ++ match outcome (m w) with
                   | Ok a => trace (k a (final (m w)))
                   | Raise _ => []
                   end.
Proof. unfold bind. destruct (outcome (m w)); simpl; [reflexivity | now rewrite app_nil_r]. Qed.

Lemma bind_final {A C} (m : M A) (k : A -> M C) (w : World) :
  final (bind m k w)
  = match outcome (m w) with
    | Ok a => final (k a (final (m w)))
    | Raise _ => final (m w)
    end.
Proof. unfold bind. now destruct (outcome (m w)). Qed.

Lemma bind_assoc {A C D} (m : M A) (k : A -> M C) (h : C -> M D) (w : World) :
  bind (bind m k) h w = bind m (fun a => bind (k a) h) w.
Proof.
  unfold bind. destruct (m w) as [[a|e] w1 t1]; simpl; [|reflexivity].
  destruct (k a w1) as [[c|e] w2 t2]; simpl; [|reflexivity].
  now rewrite app_assoc.
Qed.

Lemma bind_emit {C} (ev : Event) (k : unit -> M C) (w : World) :
  bind (emit ev) k w
  = {| outcome := outcome (k tt w); final := final (k tt w);
       trace := ev :: trace (k tt w) |}.
Proof. reflexivity. Qed.

End MoreRunLemmas.

(** ** More on the transcript loop *)

Section MoreStrings.

Lemma cut_spec (sep : ascii) (s before after : string) :
  cut sep s = Some (before, after) ->
  s = before +:+ String sep after /\ PyStr.contains sep before = false.
Proof.
  revert before. induction s as [|c s IH]; intros before Hcut; simpl in Hcut.
  - discriminate Hcut.
  - destruct (Ascii.eqb c sep) eqn:Hc.
    + injection Hcut as <- <-. apply Ascii.eqb_eq in Hc. subst c. split; reflexivity.
    + destruct (cut sep s) as [[b a]|]; [|discriminate Hcut].
      injection Hcut as <- <-. destruct (IH b eq_refl) as [-> Hb].
      split; [reflexivity|]. simpl. now rewrite Hc.
Qed.

Lemma contains_count (sep : ascii) (s : string) :
  PyStr.contains sep s = false <-> PyStr.count sep s = 0.
Proof.
  induction s as [|c s IH]; simpl; [tauto|].
  destruct (Ascii.eqb c sep); simpl; [split; [discriminate | lia] | exact IH].
Qed.

(** A split in two fields is a cut at the only separator. *)
Lemma split_two (sep : ascii) (s a b : string) :
  PyStr.split sep s = [a; b] ->
  cut sep s = Some (a, b) /\ PyStr.contains sep b = false.
Proof.
  rewrite split_cut. destruct (cut sep s) as [[x y]|]; [|discriminate].
  rewrite split_cut.
  destruct (cut sep y) as [[y1 y2]|] eqn:Hy.
  - rewrite split_cut. destruct (cut sep y2) as [[? ?]|]; discriminate.
  - intros H. injection H as <- <-. split; [reflexivity|].
    now rewrite contains_cut, Hy.
Qed.

End MoreStrings.

Section MoreTranscript.

Context `{B : Backend}.
Variable NAMES : list string.

(** The loop over a longer reply is the loop over its first lines followed
    by the loop over the others. *)
Lemma history_loop_app (speakers : gmap string Speaker) (lines1 lines2 : list string) :
  forall history history_html w,
    history_loop NAMES speakers (lines1 ++ lines2) history history_html w
    = bind (history_loop NAMES speakers lines1 history history_html)
        (fun built => history_loop NAMES speakers lines2 (fst built) (snd built)) w.
Proof.
  induction lines1 as [|line lines1 IH]; intros history history_html w.
  - simpl. now rewrite bind_ret.
  - simpl. destruct (line_body NAMES speakers line) as [[[speaker text]|]|e];
      try apply IH.
    destruct e; try reflexivity.
    rewrite bind_assoc, !bind_emit. now rewrite IH.
Qed.

(** A line on which the body raises anything but an assertion error ends
    the loop with that exception; the lines after it are not read. *)
Lemma history_loop_abort (speakers : gmap string Speaker)
    (pre post : list string) (bad : string) (e : exn)
    (history : list (Speaker * string)) (history_html : list string)
    (w w' : World) (built : list (Speaker * string) * list string) (t : list Event) :
  line_body NAMES speakers bad = Raise e ->
  (forall msg, e <> AssertionError msg) ->
  history_loop NAMES speakers pre history history_html w
    = {| outcome := Ok built; final := w'; trace := t |} ->
  history_loop NAMES speakers (pre ++ bad :: post) history history_html w
  = {| outcome := Raise e; final := w'; trace := t |}.
Proof.
  intros Hbad Hne Hpre. rewrite history_loop_app.
  erewrite bind_step by exact Hpre. simpl. rewrite Hbad.
  destruct e; try (unfold raise; simpl; now rewrite app_nil_r).
  now destruct (Hne msg).
Qed.

Lemma line_body_extra_colon (speakers : gmap string Speaker) (line : string) :
  2 <= PyStr.count ":" line ->
  line_body NAMES speakers line
  = Raise (ValueError "too many values to unpack (expected 2)").
Proof.
  intros Hcount. unfold line_body.
  destruct line as [|c line]; [simpl in Hcount; lia|].
  change (PyStr.truthy (String c line)) with true. cbv [negb].
  assert (PyStr.contains ":" (String c line) = true) as ->.
  { destruct (PyStr.contains ":" (String c line)) eqn:E; [reflexivity|].
    apply contains_count in E. lia. }
  destruct (split_many ":" _ Hcount) as (a & b & c' & rest & ->). reflexivity.
Qed.

Lemma line_body_inactive (speakers : gmap string Speaker) (line nm text : string) :
  PyStr.count ":" line <= 1 ->
  cut ":" line = Some (nm, text) ->
  str_in nm NAMES = true ->
  speakers !! nm = None ->
  line_body NAMES speakers line = Raise (KeyError nm).
Proof.
  intros Hcount Hcut Hin Hnone. unfold line_body.
  assert (PyStr.truthy line = true) as -> by (destruct line; [discriminate Hcut | reflexivity]).
  cbv [negb]. rewrite contains_cut, Hcut. simpl.
  rewrite (split_single _ _ _ _ Hcount Hcut). simpl. rewrite Hin. simpl.
  unfold getitem. now rewrite Hnone.
Qed.

(** What a kept line looks like. *)
Lemma line_body_kept (speakers : gmap string Speaker) (line : string)
    (speaker : Speaker) (text : string) :
  line_body NAMES speakers line = Ok (Some (speaker, text)) ->
  exists nm,
    line = nm +:+ ":" +:+ text
    /\ str_in nm NAMES = true
    /\ speakers !! nm = Some speaker
    /\ PyStr.contains ":" nm = false
    /\ PyStr.contains ":" text = false
    /\ text <> EmptyString.
Proof.
  unfold line_body. destruct (PyStr.truthy line); [|discriminate]. cbv [negb].
  destruct (PyStr.contains ":" line); [|discriminate]. simpl.
  destruct (PyStr.split ":" line) as [|a [|b [|c rest]]] eqn:Hsplit; try discriminate.
  simpl. destruct (str_in a NAMES) eqn:Hin; [|discriminate]. simpl.
  unfold getitem. destruct (speakers !! a) as [sp|] eqn:Hsp; [|discriminate]. simpl.
  rewrite truthy_length. destruct (PyStr.truthy b) eqn:Hb; [|discriminate]. simpl.
  intros H. injection H as <- <-.
  destruct (split_two _ _ _ _ Hsplit) as [Hcut Hnocolon].
  destruct (cut_spec _ _ _ _ Hcut) as [Hline Hnm].
  exists a. repeat split; auto. now destruct b.
Qed.

(** What the loop returns, whatever the lines: the entries it added are
    those of the lines its body kept, a subsequence of the lines, and the
    HTML grew by their blocks. *)
Lemma history_loop_Ok_inv (speakers : gmap string Speaker) (lines : list string) :
  forall history history_html w history' history_html',
    outcome (history_loop NAMES speakers lines history history_html w)
      = Ok (history', history_html') ->
    exists kept added,
      history' = history ++ added
      /\ history_html' = history_html ++ map entry_bubble added
      /\ kept `sublist_of` lines
      /\ Forall2 (fun line entry => line_body NAMES speakers line = Ok (Some entry))
           kept added.
Proof.
  induction lines as [|line lines IH];
    intros history history_html w history' history_html' Hok; simpl in Hok.
  - injection Hok as <- <-. exists [], []. rewrite !app_nil_r.
    repeat split; constructor.
  - destruct (line_body NAMES speakers line) as [[[speaker text]|]|e] eqn:Hbody.
    + destruct (IH _ _ _ _ _ Hok) as (kept & added & -> & -> & Hsub & Hall).
      exists (line :: kept), ((speaker, text) :: added).
      rewrite <- !app_assoc. repeat split; auto.
      * now apply sublist_skip.
    + destruct (IH _ _ _ _ _ Hok) as (kept & added & -> & -> & Hsub & Hall).
      exists kept, added. repeat split; auto. now apply sublist_cons.
    + destruct e; try discriminate Hok.
      rewrite bind_outcome in Hok. simpl in Hok.
      destruct (IH _ _ _ _ _ Hok) as (kept & added & -> & -> & Hsub & Hall).
      exists kept, added. repeat split; auto. now apply sublist_cons.
Qed.

End MoreTranscript.

Section TranscriptExtras.

Context `{B : Backend}.
Variable NAMES : list string.

(** X1.  A line with two or more ":" ends the transcript loop with the
    [ValueError] of the unpacking of line 93, whatever its speaker and
    whatever follows it: the entries and the blocks of the lines before it
    are lost, their warnings stay logged. *)
Theorem extra_colon_raises_ValueError
    (speakers : gmap string Speaker) (pre post : list string) (bad : string)
    (history : list (Speaker * string)) (history_html : list string)
    (w w' : World) (built : list (Speaker * string) * list string) (t : list Event) :
  2 <= PyStr.count ":" bad ->
  history_loop NAMES speakers pre history history_html w
    = {| outcome := Ok built; final := w'; trace := t |} ->
  history_loop NAMES speakers (pre ++ bad :: post) history history_html w
  = {| outcome := Raise (ValueError "too many values to unpack (expected 2)");
       final := w'; trace := t |}.
Proof.
  intros Hcount Hpre. eapply history_loop_abort; [|discriminate|exact Hpre].
  now apply line_body_extra_colon.
Qed.

(** X2.  A line with one ":" whose name is a known persona without a
    built speaker ends the transcript loop with [KeyError] on that name,
    even when its text is empty: the lookup of line 95 comes before the
    check of the text. *)
Theorem inactive_speaker_raises_KeyError
    (speakers : gmap string Speaker) (pre post : list string) (bad nm text : string)
    (history : list (Speaker * string)) (history_html : list string)
    (w w' : World) (built : list (Speaker * string) * list string) (t : list Event) :
  PyStr.count ":" bad <= 1 ->
  cut ":" bad = Some (nm, text) ->
  str_in nm NAMES = true ->
  speakers !! nm = None ->
  history_loop NAMES speakers pre history history_html w
    = {| outcome := Ok built; final := w'; trace := t |} ->
  history_loop NAMES speakers (pre ++ bad :: post) history history_html w
  = {| outcome := Raise (KeyError nm); final := w'; trace := t |}.
Proof.
  intros Hcount Hcut Hin Hnone Hpre.
  eapply history_loop_abort; [|discriminate|exact Hpre].
  eapply line_body_inactive; eassumption.
Qed.

(** X3.  Whatever the reply, every entry of a History the loop returns has
    a non-empty text without ":" and the speaker built for a known
    persona. *)
Theorem history_entries_wellformed
    (speakers : gmap string Speaker) (lines : list string)
    (history_html : list string) (w : World)
    (history' : list (Speaker * string)) (history_html' : list string) :
  outcome (history_loop NAMES speakers lines [] history_html w)
    = Ok (history', history_html') ->
  Forall (fun entry =>
            snd entry <> EmptyString
            /\ PyStr.contains ":" (snd entry) = false
            /\ exists nm, str_in nm NAMES = true
                          /\ speakers !! nm = Some (fst entry))
    history'.
Proof.
  intros Hok.
  destruct (history_loop_Ok_inv NAMES speakers lines _ _ _ _ _ Hok)
    as (kept & added & -> & _ & _ & Hall).
  simpl. clear Hok.
  induction Hall as [|line [speaker text] kept added Hbody _ IH]; constructor.
  - destruct (line_body_kept NAMES _ _ _ _ Hbody) as (nm & _ & Hin & Hsp & _ & Hc & Hne).
    simpl. eauto.
  - exact IH.
Qed.

(** X4.  The History keeps the surviving lines in their order: its entries
    are, one for one, a subsequence of the lines of the reply, and each
    line is its entry's persona name, ":", and its entry's text,
    unchanged. *)
Theorem history_preserves_order
    (speakers : gmap string Speaker) (lines : list string)
    (history_html : list string) (w : World)
    (history' : list (Speaker * string)) (history_html' : list string) :
  outcome (history_loop NAMES speakers lines [] history_html w)
    = Ok (history', history_html') ->
  exists kept,
    kept `sublist_of` lines
    /\ Forall2 (fun line entry =>
                  exists nm, line = nm +:+ ":" +:+ snd entry
                             /\ speakers !! nm = Some (fst entry))
         kept history'.
Proof.
  intros Hok.
  destruct (history_loop_Ok_inv NAMES speakers lines _ _ _ _ _ Hok)
    as (kept & added & -> & _ & Hsub & Hall).
  exists kept. split; [exact Hsub|]. simpl.
  eapply Forall2_impl; [exact Hall|].
  intros line [speaker text] Hbody.
  destruct (line_body_kept NAMES _ _ _ _ Hbody) as (nm & Hline & _ & Hsp & _).
  exists nm. auto.
Qed.

(** X5.  The HTML is derivable from the History: what the loop appends to
    the HTML is, in order, one block per entry it appends to the History,
    filled with the colour of the entry's speaker and the entry's text. *)
Theorem history_html_follows_history
    (speakers : gmap string Speaker) (lines : list string)
    (history : list (Speaker * string)) (history_html : list string) (w : World)
    (history' : list (Speaker * string)) (history_html' : list string) :
  outcome (history_loop NAMES speakers lines history history_html w)
    = Ok (history', history_html') ->
  exists added,
    history' = history ++ added
    /\ history_html' = history_html ++ map entry_bubble added.
Proof.
  intros Hok.
  destruct (history_loop_Ok_inv NAMES speakers lines _ _ _ _ _ Hok)
    as (kept & added & H1 & H2 & _).
  exists added. auto.
Qed.

End TranscriptExtras.

(** ** More on the setup of a turn *)

Section SetupExtras.

Context `{B : Backend}.

(** The loop leaves alone the speakers of the names it does not visit. *)
Lemma speakers_loop_other (names : list string) :
  forall (i : nat) (speakers0 speakers : gmap string Speaker)
         (w w1 : World) (t1 : list Event),
    speakers_loop i names speakers0 w
      = {| outcome := Ok speakers; final := w1; trace := t1 |} ->
    forall n, ~ In n names -> speakers !! n = speakers0 !! n.
Proof.
  induction names as [|n0 names IH]; intros i speakers0 speakers w w1 t1 Hrun n Hn.
  - simpl in Hrun. unfold ret in Hrun. now injection Hrun as <- _ _.
  - simpl in Hrun.
    apply bind_inv_Ok in Hrun as (found & wa & ta & tb & _ & Hrun & _).
    apply bind_inv_Ok in Hrun as (u & wb & tc & td & _ & Hrun & _).
    apply bind_inv_Ok in Hrun as (v & wc & te & tf & _ & Hrun & _).
    rewrite (IH _ _ _ _ _ _ Hrun n) by (intros H; apply Hn; now right).
    apply lookup_insert_ne. intros ->. apply Hn. now left.
Qed.

(** The speaker of a name is the one built at its last position. *)
Lemma speakers_loop_last (names : list string) :
  forall (i : nat) (speakers0 speakers : gmap string Speaker)
         (w w1 : World) (t1 : list Event),
    speakers_loop i names speakers0 w
      = {| outcome := Ok speakers; final := w1; trace := t1 |} ->
    forall k n,
      names !! k = Some n ->
      (forall j, k < j -> names !! j <> Some n) ->
      exists sp, speakers !! n = Some sp /\ name sp = n /\ color sp = color_of (i + k).
Proof.
  induction names as [|n0 names IH];
    intros i speakers0 speakers w w1 t1 Hrun k n Hk Hlast; [discriminate Hk|].
  simpl in Hrun.
  apply bind_inv_Ok in Hrun as (found & wa & ta & tb & _ & Hrun & _).
  apply bind_inv_Ok in Hrun as (u & wb & tc & td & _ & Hrun & _).
  apply bind_inv_Ok in Hrun as (v & wc & te & tf & _ & Hrun & _).
  destruct k as [|k]; simpl in Hk.
  - injection Hk as ->.
    rewrite (speakers_loop_other _ _ _ _ _ _ _ Hrun n).
    + rewrite lookup_insert_eq. eexists. repeat split. simpl. now rewrite Nat.add_0_r.
    + intros Hin. apply list_elem_of_In, list_elem_of_lookup in Hin as [j Hj].
      apply (Hlast (S j)); [lia | exact Hj].
  - destruct (IH _ _ _ _ _ _ Hrun k n Hk) as (sp & Hsp & Hname & Hcolor).
    { intros j Hj. apply (Hlast (S j)). lia. }
    exists sp. repeat split; auto. rewrite Hcolor. f_equal. lia.
Qed.

Lemma speakers_loop_calls (names : list string) :
  forall (i : nat) (speakers0 speakers : gmap string Speaker)
         (w w1 : World) (t1 : list Event),
    speakers_loop i names speakers0 w
      = {| outcome := Ok speakers; final := w1; trace := t1 |} ->
    t1 = flat_map setup_calls names.
Proof.
  induction names as [|n0 names IH]; intros i speakers0 speakers w w1 t1 Hrun.
  - simpl in Hrun. unfold ret in Hrun. now injection Hrun as _ _ <-.
  - simpl in Hrun.
    apply bind_inv_Ok in Hrun as (found & wa & ta & tb & Hc & Hrun & ->).
    apply bind_inv_Ok in Hrun as (u & wb & tc & td & Ha & Hrun & ->).
    apply bind_inv_Ok in Hrun as (v & wc & te & tf & Hg & Hrun & ->).
    apply call_inv_Ok in Hc as [_ ->]. apply call_inv_Ok in Hg as [_ ->].
    apply lift_inv_Ok in Ha as (_ & _ & ->).
    simpl. now rewrite (IH _ _ _ _ _ _ Hrun).
Qed.

Lemma lookups_app (t1 t2 : list Event) :
  lookups (t1 ++ t2) = lookups t1 ++ lookups t2.
Proof. apply omap_app. Qed.

(** Names are looked up in the order of the list, up to the first one that
    stops the loop. *)
Lemma speakers_loop_lookups (names : list string) :
  forall (i : nat) (speakers0 : gmap string Speaker) (w : World),
    lookups (trace (speakers_loop i names speakers0 w)) `prefix_of` names.
Proof.
  induction names as [|n0 names IH]; intros i speakers0 w; simpl.
  - apply prefix_nil.
  - destruct (check_voice_exists n0 w) as [[found|e] wa] eqn:Hc.
    2:{ erewrite bind_stop by (apply call_Raise; exact Hc).
        apply prefix_cons, prefix_nil. }
    erewrite bind_step by (apply call_Ok; exact Hc). cbn [trace].
    change (lookups ([Ev_check_voice_exists n0] ++ ?t)) with (n0 :: lookups t).
    apply prefix_cons.
    destruct found as [v0|]; simpl assert;
      [rewrite bind_lift_Ok | rewrite bind_lift_Raise; apply prefix_nil].
    destruct (get_make_voice n0 None wa) as [[v|e] wb] eqn:Hg.
    + erewrite bind_step by (apply call_Ok; exact Hg). apply IH.
    + erewrite bind_stop by (apply call_Raise; exact Hg). apply prefix_nil.
Qed.

(** X6.  After a setup that returns, the speakers are exactly those of
    the names of the call, each with its name as key and as [name] field.
    The colour of a speaker is the palette entry at the position of its
    name in the list, and at the last of them when the name is listed more
    than once. *)
Theorem speakers_are_built
    (names : list string) (speakers : gmap string Speaker)
    (w w1 : World) (t1 : list Event) :
  speakers_loop 0 names ∅ w
    = {| outcome := Ok speakers; final := w1; trace := t1 |} ->
  (forall n, is_Some (speakers !! n) <-> In n names)
  /\ (forall k n,
        names !! k = Some n ->
        (forall j, k < j -> names !! j <> Some n) ->
        exists sp, speakers !! n = Some sp /\ name sp = n /\ color sp = color_of k).
Proof.
  intros Hrun. split.
  - intros n. split.
    + intros [sp Hsp]. destruct (In_dec String.string_dec n names) as [Hin|Hout];
        [exact Hin|].
      rewrite (speakers_loop_other _ _ _ _ _ _ _ Hrun n Hout), lookup_empty in Hsp.
      discriminate Hsp.
    + intros Hin. eapply speakers_loop_keys; [exact Hrun | now left].
  - intros k n Hk Hlast. exact (speakers_loop_last _ _ _ _ _ _ _ Hrun k n Hk Hlast).
Qed.

(** X7.  The setup looks the names up in the order of the list and stops
    at the first lookup or registration that fails; when it returns it has
    made exactly two calls per listed name, [check_voice_exists] then
    [get_make_voice] without audio, a name listed twice being looked up
    twice. *)
Theorem setup_calls_in_order
    (names : list string) (w : World) :
  let r := speakers_loop 0 names ∅ w in
  lookups (trace r) `prefix_of` names
  /\ (forall speakers, outcome r = Ok speakers ->
        trace r = flat_map setup_calls names
        /\ lookups (trace r) = names).
Proof.
  intros r. split; [apply speakers_loop_lookups|].
  intros speakers Hok.
  assert (trace r = flat_map setup_calls names) as Htrace.
  { apply (speakers_loop_calls names 0 ∅ speakers w (final r) (trace r)).
    fold r. rewrite (run_eta r) at 1. now rewrite Hok. }
  split; [exact Htrace|]. rewrite Htrace. clear.
  induction names as [|n names IH]; [reflexivity|].
  simpl. unfold lookups in *. simpl. now rewrite IH.
Qed.

(** X8.  The palette gives pairwise distinct colours to the first ten
    positions and starts over at the eleventh; a colour is always one of
    the palette. *)
Theorem colors_cycle (i j : nat) :
  In (color_of i) COLORS
  /\ color_of (i + 10) = color_of i
  /\ (i < 10 -> j < 10 -> color_of i = color_of j -> i = j).
Proof.
  assert (forall k, k < 10 -> COLORS !! k = Some (color_of k)) as Hlookup.
  { intros k Hk. unfold color_of. change (length COLORS) with 10.
    rewrite Nat.mod_small by exact Hk.
    destruct (COLORS !! k) eqn:E; [reflexivity|].
    apply lookup_ge_None in E. change (length COLORS) with 10 in E. lia. }
  assert (color_of i = color_of (i mod 10)) as Hmod.
  { unfold color_of. change (length COLORS) with 10. now rewrite Nat.Div0.mod_mod. }
  repeat split.
  - rewrite Hmod. apply list_elem_of_In. eapply list_elem_of_lookup_2.
    apply Hlookup. apply Nat.mod_upper_bound. discriminate.
  - unfold color_of. change (length COLORS) with 10.
    replace (i + 10) with (i + 1 * 10) by lia. now rewrite Nat.Div0.mod_add.
  - intros Hi Hj Heq.
    assert (NoDup COLORS) as Hnodup by (apply (bool_decide_unpack (NoDup COLORS)); vm_compute; exact I).
    eapply NoDup_lookup; [exact Hnodup | apply Hlookup, Hi|].
    rewrite Heq. apply Hlookup, Hj.
Qed.

End SetupExtras.

(** ** The defaults *)

Lemma draw_from_In (msg : string) (draw : nat) (seq : list string) :
  seq <> [] -> exists x, draw_from msg draw seq = Ok x /\ In x seq.
Proof.
  intros Hne. unfold draw_from.
  destruct (seq !! (draw mod length seq)) as [x|] eqn:E.
  - exists x. split; [reflexivity|]. apply list_elem_of_In. eapply list_elem_of_lookup_2, E.
  - apply lookup_ge_None in E.
    assert (draw mod length seq < length seq).
    { apply Nat.mod_upper_bound. destruct seq; [contradiction | discriminate]. }
    lia.
Qed.

(** X9.  With a registry of at least one persona the defaults of the
    interface pass the first check of [conversation]: the two default
    voices are personas of the registry (possibly the same one twice) and
    the default speaker is one of the two.  With an empty registry the
    draw raises [IndexError]. *)
Theorem defaults_are_consistent (draw1 draw2 draw3 : nat) (NAMES : list string) :
  (NAMES <> [] ->
   exists a b iam,
     DEFAULT_VOICES draw1 draw2 NAMES = Ok [a; b]
     /\ In a NAMES /\ In b NAMES
     /\ DEFAULT_IAM draw3 [a; b] = Ok iam
     /\ str_in iam [a; b] = true)
  /\ DEFAULT_VOICES draw1 draw2 [] = Raise (OtherError "IndexError" "list index out of range").
Proof.
  split; [|reflexivity].
  intros Hne. unfold DEFAULT_VOICES, random_choices, DEFAULT_IAM, random_choice.
  destruct (draw_from_In "list index out of range" draw1 NAMES Hne) as (a & -> & Ha).
  destruct (draw_from_In "list index out of range" draw2 NAMES Hne) as (b & -> & Hb).
  destruct (draw_from_In "Cannot choose from an empty sequence" draw3 [a; b])
    as (iam & Hdraw & Hiam); [discriminate|].
  exists a, b, iam. simpl res_bind. repeat split; auto. now apply str_in_In.
Qed.

(** ** More on synthesis and playback *)

Section PipelineExtras.

Context `{B : Backend}.

Lemma played_app (t1 t2 : list Event) : played (t1 ++ t2) = played t1 ++ played t2.
Proof. apply omap_app. Qed.

Lemma decoded_app (t1 t2 : list Event) : decoded (t1 ++ t2) = decoded t1 ++ decoded t2.
Proof. apply omap_app. Qed.

Lemma completions_app (t1 t2 : list Event) :
  completions (t1 ++ t2) = completions t1 ++ completions t2.
Proof. apply omap_app. Qed.

Lemma requests_app (t1 t2 : list Event) :
  requests (t1 ++ t2) = requests t1 ++ requests t2.
Proof. apply omap_app. Qed.

(** Synthesis events are neither decoding nor playback. *)
Lemma synthesis_is_silent (tr : list Event) :
  Forall (fun ev => is_synthesis ev = true) tr ->
  played tr = [] /\ decoded tr = [].
Proof.
  intros H. split; apply omap_none; eapply List.Forall_impl; [|exact H| |exact H];
    intros ev Hev; destruct ev; try discriminate Hev; reflexivity.
Qed.

Lemma no_completion_no_failure (tr : list Event) :
  completions tr = [] -> failed_synthesis tr = [].
Proof. intros H. now rewrite <- failed_of_completions, H. Qed.

(** What [play_history] does, by the outcome of its gather. *)
Lemma play_history_run (sched : list nat) (history : list (Speaker * string)) (w : World) :
  let tasks := enumerate 0 history in
  let rw := run_workers (completion_order sched tasks)
              (replicate (length tasks) None) None w in
  let synthesis := map submit_event tasks ++ trace rw in
  (exists e,
      outcome (gather sched tasks w) = Raise e
      /\ play_history sched history w
         = {| outcome := Raise e; final := final rw; trace := synthesis |})
  \/ (exists clips,
         outcome (gather sched tasks w) = Ok clips
         /\ length clips = length history
         /\ failed_synthesis (trace rw) = []
         /\ play_history sched history w
            = {| outcome := outcome (play_loop clips (final rw));
                 final := final (play_loop clips (final rw));
                 trace := synthesis ++ trace (play_loop clips (final rw)) |}).
Proof.
  intros tasks rw synthesis. unfold play_history. fold tasks.
  pose proof (gather_run sched tasks w) as Hg. cbn zeta in Hg. fold rw in Hg.
  assert (outcome (gather sched tasks w)
          = match head (failed_synthesis (trace rw)) with
            | Some e => Raise e
            | None => results (fill (replicate (length tasks) None)
                                 (completions (trace rw)))
            end) as Hout by (now rewrite Hg).
  assert (final (gather sched tasks w) = final rw) as Hfin by (now rewrite Hg).
  assert (trace (gather sched tasks w) = synthesis) as Htr by (now rewrite Hg).
  clear Hg.
  destruct (head (failed_synthesis (trace rw))) as [e|] eqn:Hhead.
  - left. exists e. split; [exact Hout|].
    rewrite (bind_Raise _ _ _ _ Hout). now rewrite Hfin, Htr.
  - destruct (results (fill (replicate (length tasks) None) (completions (trace rw))))
      as [clips|e] eqn:Hres.
    + right. exists clips. split; [exact Hout|].
      apply results_Ok in Hres.
      split; [|split].
      * rewrite <- (length_map (fun clip => Some (Ok clip))), <- Hres.
        rewrite fill_length, length_replicate. unfold tasks.
        now rewrite <- (length_map fst), enumerate_fst, length_seq.
      * now destruct (failed_synthesis (trace rw)).
      * rewrite (bind_Ok _ _ _ _ Hout). now rewrite Hfin, Htr.
    + left. exists e. split; [exact Hout|].
      rewrite (bind_Raise _ _ _ _ Hout). now rewrite Hfin, Htr.
Qed.

(** Decoding and playback go through the clips in order and stop at the
    first call that raises. *)
Lemma play_loop_run (clips : list (list Byte.byte)) :
  forall w : World,
    let r := play_loop clips w in
    decoded (trace r) `prefix_of` clips
    /\ requests (trace r) = []
    /\ completions (trace r) = []
    /\ match outcome r with
       | Ok _ => decoded (trace r) = clips
                 /\ length (played (trace r)) = length clips
                 /\ raised (trace r) = []
       | Raise e => raised (trace r) = [e]
                    /\ decoded (trace r) <> []
                    /\ length (played (trace r)) <= length (decoded (trace r))
                    /\ length (decoded (trace r)) <= S (length (played (trace r)))
       end.
Proof.
  induction clips as [|clip clips IH]; intros w; cbn zeta.
  - simpl. repeat split; auto.
  - simpl play_loop.
    destruct (sf_SoundFile clip w) as [[soundFile|e] w1] eqn:H1.
    2:{ erewrite bind_stop by (apply call_Raise; exact H1).
        cbn. repeat split; auto; try discriminate; apply prefix_cons, prefix_nil. }
    erewrite bind_step by (apply call_Ok; exact H1).
    destruct (sf_read soundFile w1) as [[data|e] w2] eqn:H2.
    2:{ erewrite bind_stop by (apply call_Raise; exact H2).
        cbn. repeat split; auto; try discriminate; apply prefix_cons, prefix_nil. }
    erewrite bind_step by (apply call_Ok; exact H2).
    destruct (sd_play data (sf_samplerate soundFile) w2) as [[[]|e] w3] eqn:H3.
    2:{ erewrite bind_stop by (apply call_Raise; exact H3).
        cbn. repeat split; auto; try discriminate; apply prefix_cons, prefix_nil. }
    erewrite bind_step by (apply call_Ok; exact H3).
    cbn [outcome final trace].
    destruct (IH w3) as (Hp & Hr & Hc & Hout). cbn zeta in *.
    rewrite !decoded_app, !played_app, !requests_app, !completions_app, !raised_app.
    cbn. rewrite Hr, Hc. repeat split; auto; [now apply prefix_cons|].
    destruct (outcome (play_loop clips w3)).
    + destruct Hout as (Hd & Hl & Hraised). rewrite Hd, Hl, Hraised. auto.
    + destruct Hout as (Hraised & Hne & Hl & Hd). rewrite Hraised.
      repeat split; auto; try discriminate; simpl; lia.
Qed.

(** X10.  Playback is all or nothing with respect to synthesis: as soon
    as one synthesis worker fails, [play_history] raises the exception of
    the first worker that failed and no clip is decoded or played, not even
    the clips that came before it in the History; every request has still
    been issued and run to its end. *)
Theorem synthesis_failure_plays_nothing
    (sched : list nat) (history : list (Speaker * string)) (w : World) (e : exn) :
  let r := play_history sched history w in
  head (failed_synthesis (trace r)) = Some e ->
  outcome r = Raise e
  /\ decoded (trace r) = []
  /\ played (trace r) = []
  /\ length (requests (trace r)) = length history
  /\ length (completions (trace r)) = length history.
Proof.
  intros r Hfail. subst r.
  destruct (run_workers_run (completion_order sched (enumerate 0 history))
              (replicate (length (enumerate 0 history)) None) None w)
    as (_ & Horder & Hsynth & Hreq & _ & _).
  destruct (submit_events (enumerate 0 history)) as (Sreq & Scomp & _ & Ssynth).
  cbn zeta in *.
  destruct (play_history_run sched history w)
    as [(e' & Hg & Hrun)|(clips & Hg & Hlen & Hnone & Hrun)]; cbn zeta in *.
  - rewrite Hrun in *. cbn [outcome trace] in *.
    pose proof (gather_accounted sched (enumerate 0 history) w) as Hacc.
    assert (trace (gather sched (enumerate 0 history) w)
            = map submit_event (enumerate 0 history)
                ++ trace (run_workers (completion_order sched (enumerate 0 history))
                            (replicate (length (enumerate 0 history)) None) None w))
      as Htrace by (now rewrite gather_run).
    unfold accounted in Hacc. rewrite Hg, Htrace in Hacc.
    destruct Hacc as [[_ Hf]|[[_ Hf]|[_ Hf]]];
      try (rewrite Hf in Hfail; discriminate Hfail).
    rewrite Hf in Hfail. injection Hfail as ->.
    destruct (synthesis_is_silent _ (proj2 (Forall_app _ _ _) (conj Ssynth Hsynth)))
      as [Hp Hd].
    rewrite Hp, Hd, requests_app, completions_app, Sreq, Scomp, Hreq.
    rewrite app_nil_r, length_map. simpl.
    rewrite <- (length_map fst (completions _)), Horder, length_map.
    rewrite (Permutation_length (completion_order_perm sched (enumerate 0 history))).
    assert (length (enumerate 0 history) = length history) as ->
      by (now rewrite <- (length_map fst), enumerate_fst, length_seq).
    auto.
  - exfalso. rewrite Hrun in Hfail. cbn [trace] in Hfail.
    destruct (play_loop_run clips
                (final (run_workers (completion_order sched (enumerate 0 history))
                          (replicate (length (enumerate 0 history)) None) None w)))
      as (_ & _ & Hc & _). cbn zeta in Hc.
    rewrite !failed_synthesis_app, Hnone, (no_completion_no_failure _ Hc) in Hfail.
    destruct (submit_quiet (enumerate 0 history)) as [_ Hs].
    rewrite Hs in Hfail. discriminate Hfail.
Qed.


End PipelineExtras.

(** ** More on voice provisioning *)

Section ProvisioningExtras.

Context `{B : Backend}.

Lemma extractions_app (t1 t2 : list Event) :
  extractions (t1 ++ t2) = extractions t1 ++ extractions t2.
Proof. apply omap_app. Qed.

Lemma registrations_app (t1 t2 : list Event) :
  registrations (t1 ++ t2) = registrations t1 ++ registrations t2.
Proof. apply omap_app. Qed.

Lemma of_nat_inj (i j : nat) : PyStr.of_nat i = PyStr.of_nat j -> i = j.
Proof.
  unfold PyStr.of_nat. intros H.
  assert (forall k, Nat.to_uint k <> Decimal.Nil) as Hnil.
  { intros k Hk. pose proof (Unsigned.of_to k) as Hof.
    rewrite Hk in Hof. simpl in Hof. subst k. discriminate Hk. }
  apply Unsigned.to_uint_inj.
  assert (Some (Nat.to_uint i) = Some (Nat.to_uint j)) as Heq.
  { rewrite <- (NilZero.usu (Nat.to_uint i)) by apply Hnil.
    rewrite <- (NilZero.usu (Nat.to_uint j)) by apply Hnil.
    now rewrite H. }
  now injection Heq.
Qed.

(** The video loop never looks a voice up and never registers one. *)
Lemma videos_loop_no_lookup (n : string) (videos : list yaml) :
  forall i audio_paths w,
    lookups (trace (videos_loop n i videos audio_paths w)) = []
    /\ registrations (trace (videos_loop n i videos audio_paths w)) = [].
Proof.
  assert (forall i audio_paths w,
             Forall (fun ev => lookups [ev] = [] /\ registrations [ev] = [])
               (trace (videos_loop n i videos audio_paths w))) as H.
  { induction videos as [|video videos IH]; intros i audio_paths w; simpl.
    - constructor.
    - destruct video; try constructor.
      apply trace_bind_Forall; [apply lift_trace|]. intros _ w1.
      apply trace_bind_Forall; [apply lift_trace|]. intros url w2.
      apply trace_bind_Forall; [apply call_trace; [split; reflexivity|]|].
      + intros e. split; reflexivity.
      + intros p w3. apply IH. }
  intros i audio_paths w. specialize (H i audio_paths w).
  split; apply omap_none; eapply List.Forall_impl; [|exact H| |exact H];
    intros ev [H1 H2]; destruct ev as [ |? [?|]| | | | | | | | | | ];
    try reflexivity; try discriminate H1; try discriminate H2.
Qed.

(** A video loop that returns went through every video. *)
Lemma videos_loop_Ok (n : string) (videos : list yaml) :
  forall (i : nat) (audio_paths paths : list Path) (w : World),
    outcome (videos_loop n i videos audio_paths w) = Ok paths ->
    Forall2 (fun iv x =>
               exists items url,
                 snd iv = YDict items
                 /\ dict_has items "url" = true
                 /\ dict_getitem items "url" = Ok url
                 /\ x = (url, label_of n (fst iv),
                         dict_get items "start_minute" (YInt 0),
                         dict_get items "duration" (YInt 120)))
      (enumerate i videos) (extractions (trace (videos_loop n i videos audio_paths w)))
    /\ raised (trace (videos_loop n i videos audio_paths w)) = []
    /\ exists new, paths = audio_paths ++ new /\ length new = length videos.
Proof.
  induction videos as [|video videos IH]; intros i audio_paths paths w Hok.
  - simpl in Hok |- *. injection Hok as <-. repeat split; [constructor|].
    exists []. now rewrite app_nil_r.
  - simpl in Hok |- *. destruct video as [| | | | | |items|]; try discriminate Hok.
    destruct (dict_has items "url") eqn:Hhas; [|discriminate Hok].
    simpl assert in Hok |- *. rewrite bind_lift_Ok in Hok |- *.
    destruct (dict_getitem items "url") as [url|e] eqn:Hurl; [|discriminate Hok].
    rewrite bind_lift_Ok in Hok |- *.
    match type of Hok with
    | outcome (bind (call ?ev ?f) _ _) = _ =>
        destruct (f w) as [[output_path|e] w1] eqn:Hx
    end.
    2:{ erewrite bind_stop in Hok by (apply call_Raise; exact Hx). discriminate Hok. }
    erewrite bind_step in Hok |- * by (apply call_Ok; exact Hx).
    cbn [outcome trace] in Hok |- *.
    destruct (IH _ _ _ _ Hok) as (Hall & Hraised & new & -> & Hlen).
    rewrite extractions_app, raised_app, Hraised. cbn.
    repeat split.
    + constructor; [|exact Hall]. exists items, url. repeat split; auto.
    + exists (output_path :: new). rewrite <- app_assoc. split; [reflexivity|].
      simpl. now rewrite Hlen.
Qed.

(** A video loop that meets a malformed video raises, before the
    extraction of that video. *)
Lemma videos_loop_malformed (n : string) (videos : list yaml) :
  Exists malformed videos ->
  forall (i : nat) (audio_paths : list Path) (w : World),
    (exists e, outcome (videos_loop n i videos audio_paths w) = Raise e)
    /\ length (extractions (trace (videos_loop n i videos audio_paths w)))
       < length videos.
Proof.
  intros Hex i audio_paths w.
  destruct (outcome (videos_loop n i videos audio_paths w)) as [paths|e] eqn:Hout.
  - exfalso. destruct (videos_loop_Ok _ _ _ _ _ _ Hout) as (Hall & _).
    clear Hout. revert Hall.
    generalize (extractions (trace (videos_loop n i videos audio_paths w))).
    revert i. induction Hex as [video videos Hbad|video videos _ IH];
      intros i xs Hall; inversion Hall as [|iv x ivs xs' Hhead Htail]; subst.
    + destruct Hhead as (items & url & Hv & Hhas & _). simpl in Hv.
      rewrite (Hbad items Hv) in Hhas. discriminate Hhas.
    + exact (IH _ _ Htail).
  - split; [now exists e|]. clear e Hout. revert i audio_paths w.
    induction Hex as [video videos Hbad|video videos Hex IH]; intros i audio_paths w.
    + simpl videos_loop. destruct video as [| | | | | |items|]; try (cbn; lia).
      rewrite (Hbad items eq_refl). cbn. lia.
    + simpl videos_loop. destruct video as [| | | | | |items|]; try (cbn; lia).
      destruct (dict_has items "url"); [|cbn; lia].
      simpl assert. rewrite bind_lift_Ok.
      destruct (dict_getitem items "url") as [url|e]; [|cbn; lia].
      rewrite bind_lift_Ok.
      match goal with
      | |- context [bind (call ?ev ?f) _ _] =>
          destruct (f w) as [[output_path|e] w1] eqn:Hx
      end.
      * erewrite bind_step by (apply call_Ok; exact Hx).
        cbn [trace]. rewrite extractions_app. cbn.
        specialize (IH (S i) (audio_paths ++ [output_path]) w1). lia.
      * erewrite bind_stop by (apply call_Raise; exact Hx). cbn.
        inversion Hex; simpl; lia.
Qed.

(** What the loop over the registry leaves in its trace. *)
Lemma voices_loop_shape (items : list (yaml * yaml)) :
  forall w : World,
    let r := voices_loop items w in
    map YStr (lookups (trace r)) `prefix_of` map fst items
    /\ Forall (fun reg =>
                 exists videos,
                   In (YStr (fst reg), YList videos) items
                   /\ Forall (fun video =>
                                exists fields,
                                  video = YDict fields
                                  /\ dict_has fields "url" = true) videos
                   /\ length (snd reg) = length videos)
         (registrations (trace r))
    /\ map fst (registrations (trace r)) `sublist_of` lookups (trace r)
    /\ (outcome r = Ok tt ->
        map YStr (lookups (trace r)) = map fst items
        /\ Forall (fun kv => exists n videos, kv = (YStr n, YList videos)) items).
Proof.
  induction items as [|[key value] items IH]; intros w; cbn zeta.
  - simpl. repeat split; auto; constructor.
  - assert (forall e,
               let r := raise (A := unit) e w in
               map YStr (lookups (trace r)) `prefix_of` map fst ((key, value) :: items)
               /\ Forall (fun reg =>
                            exists videos,
                              In (YStr (fst reg), YList videos) ((key, value) :: items)
                              /\ Forall (fun video =>
                                           exists fields,
                                             video = YDict fields
                                             /\ dict_has fields "url" = true) videos
                              /\ length (snd reg) = length videos)
                    (registrations (trace r))
               /\ map fst (registrations (trace r)) `sublist_of` lookups (trace r)
               /\ (outcome r = Ok tt ->
                   map YStr (lookups (trace r)) = map fst ((key, value) :: items)
                   /\ Forall (fun kv => exists n videos, kv = (YStr n, YList videos))
                        ((key, value) :: items))) as Hraise.
    { intros e. cbn. repeat split; try constructor; try discriminate.
      apply prefix_nil. }
    simpl voices_loop.
    destruct key as [| | | |n| | |]; try apply Hraise.
    destruct value as [| | | | |videos| |]; try apply Hraise.
    clear Hraise.
    assert (forall w3,
               let r := voices_loop items w3 in
               Forall (fun reg =>
                         exists videos0,
                           In (YStr (fst reg), YList videos0)
                             ((YStr n, YList videos) :: items)
                           /\ Forall (fun video =>
                                        exists fields,
                                          video = YDict fields
                                          /\ dict_has fields "url" = true) videos0
                           /\ length (snd reg) = length videos0)
                 (registrations (trace r))) as Hrest.
    { intros w3. destruct (IH w3) as (_ & Hregs & _). cbn zeta in *.
      eapply List.Forall_impl; [|exact Hregs].
      intros reg (videos0 & Hin & Hwf & Hlen). exists videos0.
      split; [now right|]. split; assumption. }
    destruct (check_voice_exists n w) as [[found|e] w1] eqn:Hfound.
    2:{ erewrite bind_stop by (apply call_Raise; exact Hfound). cbn.
        repeat split; try constructor; try discriminate.
        - apply prefix_cons, prefix_nil.
        - apply sublist_nil_l. }
    erewrite bind_step by (apply call_Ok; exact Hfound).
    cbn [outcome trace].
    destruct (is_not_None found).
    { destruct (IH w1) as (Hpre & _ & Hsub & Hok). cbn zeta in *.
      change (lookups ([Ev_check_voice_exists n] ++ ?t)) with (n :: lookups t).
      change (registrations ([Ev_check_voice_exists n] ++ ?t)) with (registrations t).
      repeat split.
      - simpl. now apply prefix_cons.
      - apply Hrest.
      - now apply sublist_cons.
      - simpl. f_equal. now apply Hok.
      - constructor; [now exists n, videos | now apply Hok]. }
    destruct (videos_loop_no_lookup n videos 0 [] w1) as [Hl Hr].
    destruct (outcome (videos_loop n 0 videos [] w1)) as [paths|e] eqn:Hvideos.
    2:{ rewrite (bind_Raise _ _ _ _ Hvideos). cbn [outcome trace].
        change (lookups ([Ev_check_voice_exists n] ++ ?t)) with (n :: lookups t).
        change (registrations ([Ev_check_voice_exists n] ++ ?t)) with (registrations t).
        rewrite Hl, Hr. repeat split; try constructor; try discriminate.
        - simpl. apply prefix_cons, prefix_nil.
        - apply sublist_nil_l. }
    rewrite (bind_Ok _ _ _ _ Hvideos). cbn [outcome trace].
    destruct (videos_loop_Ok _ _ _ _ _ _ Hvideos) as (Hall & _ & new & Hpaths & Hlen).
    simpl in Hpaths. subst new.
    assert (Forall (fun video =>
                      exists fields,
                        video = YDict fields /\ dict_has fields "url" = true) videos)
      as Hwf.
    { clear -Hall. revert Hall.
      generalize (extractions (trace (videos_loop n 0 videos [] w1))).
      generalize 0. induction videos as [|video videos IHv]; intros i xs Hall.
      - constructor.
      - inversion Hall as [|iv x ivs xs' Hhead Htail]; subst.
        constructor; [|exact (IHv _ _ Htail)].
        destruct Hhead as (fields & url & Hv & Hhas & _). now exists fields. }
    set (w2 := final (videos_loop n 0 videos [] w1)).
    destruct (get_make_voice n (Some paths) w2) as [[v|e] w3] eqn:Hmake.
    2:{ erewrite bind_stop by (apply call_Raise; exact Hmake). cbn [outcome trace].
        change (lookups ([Ev_check_voice_exists n] ++ ?t)) with (n :: lookups t).
        change (registrations ([Ev_check_voice_exists n] ++ ?t)) with (registrations t).
        rewrite lookups_app, registrations_app, Hl, Hr. cbn.
        repeat split; try discriminate.
        - apply prefix_cons, prefix_nil.
        - constructor; [|constructor]. exists videos. simpl. auto.
        - apply sublist_skip, sublist_nil. }
    erewrite bind_step by (apply call_Ok; exact Hmake). cbn [outcome trace].
    destruct (IH w3) as (Hpre & _ & Hsub & Hok). cbn zeta in *.
    change (lookups ([Ev_check_voice_exists n] ++ ?t)) with (n :: lookups t).
    change (registrations ([Ev_check_voice_exists n] ++ ?t)) with (registrations t).
    rewrite !lookups_app, !registrations_app, Hl, Hr. cbn.
    repeat split.
    + now apply prefix_cons.
    + constructor; [|apply Hrest]. exists videos. simpl. auto.
    + now apply sublist_skip.
    + f_equal. now apply Hok.
    + constructor; [now exists n, videos | now apply Hok].
Qed.

(** X12.  The labels handed to [extract_audio] tell the persona and the
    position of the video apart: two labels are equal only for the same
    persona and the same position, whatever the persona's name holds. *)
Theorem labels_are_distinct (n n' : string) (i j : nat) :
  label_of n i = label_of n' j -> n = n' /\ i = j.
Proof.
  intros Heq. unfold label_of in Heq.
  pose proof (label_inj _ _ _ _ Heq) as ->. split; [reflexivity|].
  apply (inj (String.app "audio.")) in Heq.
  apply (inj (String.app n')) in Heq.
  apply (inj (String.app ".")) in Heq.
  now apply of_nat_inj.
Qed.

(** X13.  When the loop over the videos of a persona returns, it has
    called [extract_audio] once per video, in order, with the video's url,
    the label of the persona and of the video's position, and the start
    minute and duration of the video or the defaults 0 and 120; no call
    failed, and the paths it returns are the ones it was given followed by
    one path per video. *)
Theorem videos_are_extracted_in_order
    (n : string) (i : nat) (videos : list yaml) (audio_paths paths : list Path)
    (w : World) :
  let r := videos_loop n i videos audio_paths w in
  outcome r = Ok paths ->
  Forall2 (fun iv x =>
             exists items url,
               snd iv = YDict items
               /\ dict_has items "url" = true
               /\ dict_getitem items "url" = Ok url
               /\ x = (url, label_of n (fst iv),
                       dict_get items "start_minute" (YInt 0),
                       dict_get items "duration" (YInt 120)))
    (enumerate i videos) (extractions (trace r))
  /\ raised (trace r) = []
  /\ exists new, paths = audio_paths ++ new /\ length new = length videos.
Proof. intros r Hok. now apply videos_loop_Ok. Qed.

(** X14.  [make_voices] registers only what the document describes: every
    registration it makes is for a persona of the document whose value is a
    list of videos that are all dicts with a url, and it hands over exactly
    one audio path per video; each registration follows a lookup of that
    persona in the same call.  This holds whether the call returns or
    raises. *)
Theorem registrations_match_document
    (voices_yaml : string) (items : list (yaml * yaml)) (w : World) :
  let r := make_voices voices_yaml w in
  yaml_safe_load voices_yaml = Ok (YDict items) ->
  Forall (fun reg =>
            exists videos,
              In (YStr (fst reg), YList videos) items
              /\ Forall (fun video =>
                           exists fields,
                             video = YDict fields
                             /\ dict_has fields "url" = true) videos
              /\ length (snd reg) = length videos)
    (registrations (trace r))
  /\ map fst (registrations (trace r)) `sublist_of` lookups (trace r).
Proof.
  intros r Hload. subst r. rewrite make_voices_unfold. cbn [trace].
  unfold make_voices_body. rewrite Hload, bind_lift_Ok.
  destruct (voices_loop_shape items w) as (_ & H1 & H2 & _). auto.
Qed.

(** X15.  [make_voices] goes through the personas in the order of the
    document and stops at the first failure: the names it looks up are the
    keys of a prefix of the document.  When it returns, the document was a
    mapping whose keys are all strings and whose values are all lists, and
    every persona was looked up exactly once, in document order. *)
Theorem personas_in_document_order
    (voices_yaml : string) (items : list (yaml * yaml)) (w : World) :
  let r := make_voices voices_yaml w in
  yaml_safe_load voices_yaml = Ok (YDict items) ->
  map YStr (lookups (trace r)) `prefix_of` map fst items
  /\ (outcome r = Ok "Success" ->
      map YStr (lookups (trace r)) = map fst items
      /\ Forall (fun kv => exists n videos, kv = (YStr n, YList videos)) items).
Proof.
  intros r Hload. subst r. rewrite make_voices_unfold. cbn [trace outcome].
  unfold make_voices_body. rewrite Hload, bind_lift_Ok.
  destruct (voices_loop_shape items w) as (H1 & _ & _ & H2). cbn zeta in *.
  split; [exact H1|]. intros Hok. apply H2.
  destruct (outcome (voices_loop items w)) as [[]|e]; [reflexivity|discriminate Hok].
Qed.

(** X16.  A persona whose voice does not exist yet and one of whose videos
    is not a dict with a url is never registered: the call raises, fewer
    extractions are made than the persona has videos, no voice is
    registered, and the personas after it are not even looked up. *)
Theorem malformed_video_blocks_registration
    (voices_yaml n : string) (videos : list yaml) (rest : list (yaml * yaml))
    (w w1 : World) :
  let r := make_voices voices_yaml w in
  yaml_safe_load voices_yaml = Ok (YDict ((YStr n, YList videos) :: rest)) ->
  check_voice_exists n w = (Ok None, w1) ->
  Exists malformed videos ->
  (exists e, outcome r = Raise e)
  /\ registrations (trace r) = []
  /\ lookups (trace r) = [n]
  /\ length (extractions (trace r)) < length videos.
Proof.
  intros r Hload Hfound Hbad. subst r. rewrite make_voices_unfold.
  cbn [trace outcome]. unfold make_voices_body. rewrite Hload, bind_lift_Ok.
  simpl voices_loop.
  erewrite bind_step by (apply call_Ok; exact Hfound). cbn [outcome trace].
  unfold is_not_None. cbv iota.
  destruct (videos_loop_malformed n videos Hbad 0 [] w1) as [[e He] Hlt].
  destruct (videos_loop_no_lookup n videos 0 [] w1) as [Hl Hr].
  rewrite (bind_Raise _ _ _ _ He). cbn [outcome trace].
  change (lookups ([Ev_check_voice_exists n] ++ ?t)) with (n :: lookups t).
  change (registrations ([Ev_check_voice_exists n] ++ ?t)) with (registrations t).
  change (extractions ([Ev_check_voice_exists n] ++ ?t)) with (extractions t).
  rewrite Hl, Hr. repeat split; auto. now exists e.
Qed.

End ProvisioningExtras.

(** ** A whole turn *)

Section TurnExtras.

Context `{B : Backend}.

Variable NAMES : list string.


Lemma setup_is_silent (tr : list Event) :
  Forall (fun ev => is_setup ev = true) tr ->
  decoded tr = [] /\ completions tr = [].
Proof.
  intros H. split; apply omap_none; eapply List.Forall_impl; [|exact H| |exact H];
    intros ev Hev; destruct ev; try discriminate Hev; reflexivity.
Qed.

Lemma warnings_are_silent (tr : list Event) :
  Forall (fun ev => is_warning ev = true) tr ->
  decoded tr = [] /\ completions tr = [].
Proof.
  intros H. split; apply omap_none; eapply List.Forall_impl; [|exact H| |exact H];
    intros ev Hev; destruct ev; try discriminate Hev; reflexivity.
Qed.



(** X18.  A line on which the transcript loop raises ends the whole turn:
    when the setup, the transcription and the text generation went through
    and the loop over the reply raises, the turn raises that exception and
    returns no HTML; nothing is synthesised, decoded or played, and no
    collaborator call has failed. *)
Theorem aborted_transcript_ends_turn
    (sched : list nat) (names : list string) (iam : string) (audio : Audio)
    (model : string) (max_tokens temperature timeout samplerate channels : Number)
    (w w1 w2 w3 : World) (speakers : gmap string Speaker) (t1 : list Event)
    (request response : string) (e : exn) :
  let r := conversation NAMES sched names iam audio model max_tokens temperature
             timeout samplerate channels w in
  str_in iam names = true ->
  speakers_loop 0 names ∅ w
    = {| outcome := Ok speakers; final := w1; trace := t1 |} ->
  speech_to_text audio w1 = (Ok request, w2) ->
  fake_conversation names iam request model max_tokens temperature w2
    = (Ok response, w3) ->
  outcome (history_loop NAMES speakers (PyStr.splitlines response) [] [] w3)
    = Raise e ->
  outcome r = Raise e
  /\ final r = w3
  /\ requests (trace r) = []
  /\ decoded (trace r) = []
  /\ played (trace r) = []
  /\ raised (trace r) = [].
Proof.
  intros r Hiam Hsetup Hstt Hchat Hloop. subst r.
  destruct (speakers_loop_keys names 0 ∅ speakers w w1 t1 Hsetup iam) as [me Hme].
  { left. now apply str_in_In. }
  pose proof (speakers_loop_trace names 0 ∅ w) as Hquiet.
  pose proof (speakers_loop_accounted names 0 ∅ w) as Hacc.
  unfold accounted in Hacc. rewrite Hsetup in Hquiet, Hacc.
  cbn [outcome trace] in Hquiet, Hacc. destruct Hacc as [R1 _].
  destruct (quiet_setup _ Hquiet) as [Q1 Q2].
  destruct (setup_is_silent _ Hquiet) as [Q3 _].
  destruct (history_loop_trace NAMES speakers (PyStr.splitlines response) [] [] w3)
    as [Hwarn Hfinal].
  destruct (quiet_warnings _ Hwarn) as [W1 W2].
  destruct (warnings_are_silent _ Hwarn) as [W3 _].
  assert (raised (trace (history_loop NAMES speakers (PyStr.splitlines response)
                           [] [] w3)) = []) as W4.
  { apply omap_none. eapply List.Forall_impl; [|exact Hwarn].
    intros ev Hev. destruct ev; try discriminate Hev; reflexivity. }
  unfold conversation. rewrite Hiam. simpl assert. rewrite bind_lift_Ok.
  erewrite bind_step by exact Hsetup.
  erewrite bind_step by (apply call_Ok; exact Hstt).
  unfold getitem. rewrite Hme, bind_lift_Ok.
  erewrite bind_step by (apply call_Ok; exact Hchat).
  cbn [outcome final trace].
  rewrite bind_outcome, bind_final, bind_trace.
  rewrite history_loop_html. cbn zeta. cbn [outcome final trace].
  rewrite Hloop, Hfinal, app_nil_r.
  rewrite !requests_app, !decoded_app, !played_app, !raised_app.
  rewrite Q1, Q2, Q3, R1, W1, W2, W3, W4.
  repeat split; reflexivity.
Qed.

End TurnExtras.

(** * The further properties on the test double *)

Lemma extra_colon_raises_ValueError_witness :
  outcome (history_loop Demo.NAMES3 Demo.speakers3
             (["Bob:"] ++ "Alice:one:two" :: ["Carol:hi"]) [] [] Demo.w0)
  = Raise (ValueError "too many values to unpack (expected 2)").
Proof.
  erewrite (extra_colon_raises_ValueError Demo.NAMES3 Demo.speakers3
              ["Bob:"] ["Carol:hi"] "Alice:one:two" [] [] Demo.w0).
  - reflexivity.
  - vm_compute. lia.
  - reflexivity.
Defined.

Lemma inactive_speaker_raises_KeyError_witness :
  outcome (history_loop Demo.NAMES3 Demo.speakers2
             ([] ++ "Carol:" :: ["Alice:hi"]) [] [] Demo.w0)
  = Raise (KeyError "Carol").
Proof.
  erewrite (inactive_speaker_raises_KeyError Demo.NAMES3 Demo.speakers2
              [] ["Alice:hi"] "Carol:" "Carol" "" [] [] Demo.w0).
  - reflexivity.
  - vm_compute. lia.
  - reflexivity.
  - reflexivity.
  - vm_compute. reflexivity.
  - reflexivity.
Defined.

Lemma history_entries_wellformed_witness :
  Forall (fun entry : Speaker * string =>
            snd entry <> EmptyString
            /\ PyStr.contains ":" (snd entry) = false
            /\ exists nm, str_in nm Demo.NAMES3 = true
                          /\ Demo.speakers3 !! nm = Some (fst entry))
    [(Demo.speaker_of 0 "Alice", "Hello there");
     (Demo.speaker_of 2 "Carol", "Good to see you")].
Proof.
  apply (history_entries_wellformed Demo.NAMES3 Demo.speakers3
           (PyStr.splitlines example_reply) [] Demo.w0 _
           [bubble "#FFA07A" "Hello there"; bubble "#AFEEEE" "Good to see you"]).
  vm_compute. reflexivity.
Defined.

Lemma history_preserves_order_witness :
  exists kept,
    kept `sublist_of` PyStr.splitlines example_reply
    /\ Forall2 (fun line (entry : Speaker * string) =>
                  exists nm, line = nm +:+ ":" +:+ snd entry
                             /\ Demo.speakers3 !! nm = Some (fst entry))
         kept
         [(Demo.speaker_of 0 "Alice", "Hello there");
          (Demo.speaker_of 2 "Carol", "Good to see you")].
Proof.
  apply (history_preserves_order Demo.NAMES3 Demo.speakers3
           (PyStr.splitlines example_reply) [] Demo.w0 _
           [bubble "#FFA07A" "Hello there"; bubble "#AFEEEE" "Good to see you"]).
  vm_compute. reflexivity.
Defined.

Lemma history_html_follows_history_witness :
  exists added : list (Speaker * string),
    [(Demo.speaker_of 0 "Alice", "Hello there");
     (Demo.speaker_of 2 "Carol", "Good to see you")] = [] ++ added
    /\ [bubble "#FFA07A" "Hi all"; bubble "#FFA07A" "Hello there";
        bubble "#AFEEEE" "Good to see you"]
       = [bubble "#FFA07A" "Hi all"] ++ map entry_bubble added.
Proof.
  apply (history_html_follows_history Demo.NAMES3 Demo.speakers3
           (PyStr.splitlines example_reply) [] [bubble "#FFA07A" "Hi all"] Demo.w0).
  vm_compute. reflexivity.
Defined.

Lemma speakers_are_built_witness :
  exists sp, Demo.speakers2 !! "Bob" = Some sp
             /\ name sp = "Bob" /\ color sp = color_of 1.
Proof.
  refine (proj2 (speakers_are_built (B := Demo.backend) ["Alice"; "Bob"] Demo.speakers2
                   Demo.w0 Demo.w0 (flat_map setup_calls ["Alice"; "Bob"]) _)
            1 "Bob" _ _).
  - vm_compute. reflexivity.
  - reflexivity.
  - intros j Hj. destruct j as [|[|j]]; [lia | lia | discriminate].
Defined.

Lemma setup_calls_in_order_witness :
  lookups (trace (speakers_loop (B := Demo.backend) 0 ["Alice"; "Bob"] ∅ Demo.w0))
  = ["Alice"; "Bob"].
Proof.
  apply (proj2 (setup_calls_in_order (B := Demo.backend) ["Alice"; "Bob"] Demo.w0)
           Demo.speakers2).
  vm_compute. reflexivity.
Defined.

Lemma colors_cycle_witness :
  In (color_of 3) COLORS /\ color_of (3 + 10) = color_of 3 /\ 3 = 3.
Proof.
  destruct (colors_cycle 3 3) as (H1 & H2 & H3).
  split; [exact H1|]. split; [exact H2|].
  apply H3; [lia | lia | reflexivity].
Defined.

Lemma defaults_are_consistent_witness :
  exists a b iam,
    DEFAULT_VOICES 4 2 Demo.NAMES3 = Ok [a; b]
    /\ In a Demo.NAMES3 /\ In b Demo.NAMES3
    /\ DEFAULT_IAM 1 [a; b] = Ok iam
    /\ str_in iam [a; b] = true.
Proof.
  apply (proj1 (defaults_are_consistent 4 2 1 Demo.NAMES3)).
  discriminate.
Defined.

Lemma synthesis_failure_plays_nothing_witness :
  let history := [(Demo.speaker_of 0 "Alice", "one"); (Demo.speaker_of 1 "Bob", "two");
                  (Demo.speaker_of 2 "Carol", "three")] in
  let r := play_history [2; 1; 0] history (Demo.mute "two") in
  outcome r = Raise (OtherError "APIError" "two")
  /\ decoded (trace r) = []
  /\ played (trace r) = []
  /\ length (requests (trace r)) = 3
  /\ length (completions (trace r)) = 3.
Proof.
  intros history r.
  apply (synthesis_failure_plays_nothing [2; 1; 0] history (Demo.mute "two")).
  vm_compute. reflexivity.
Defined.

Lemma labels_are_distinct_witness : "Dave" = "Dave" /\ 1 = 1.
Proof.
  apply (labels_are_distinct "Dave" "Dave" 1 1). reflexivity.
Defined.

Lemma videos_are_extracted_in_order_witness :
  let videos := [YDict [(YStr "url", YStr "u")];
                 YDict [(YStr "url", YStr "v"); (YStr "duration", YInt 60)]] in
  let r := videos_loop (B := Demo.backend) "Dave" 0 videos [] Demo.w0 in
  Forall2 (fun (iv : nat * yaml) x =>
             exists items url,
               snd iv = YDict items
               /\ dict_has items "url" = true
               /\ dict_getitem items "url" = Ok url
               /\ x = (url, label_of "Dave" (fst iv),
                       dict_get items "start_minute" (YInt 0),
                       dict_get items "duration" (YInt 120)))
    (enumerate 0 videos) (extractions (trace r))
  /\ raised (trace r) = []
  /\ exists new, ["audio.Dave.0"; "audio.Dave.1"] = [] ++ new
                 /\ length new = length videos.
Proof.
  intros videos r.
  apply (videos_are_extracted_in_order (B := Demo.backend) "Dave" 0 videos []
           ["audio.Dave.0"; "audio.Dave.1"] Demo.w0).
  vm_compute. reflexivity.
Defined.

Lemma registrations_match_document_witness :
  let r := make_voices (B := Demo.backend)
             "{Alice: [{url: a}], Dave: [{url: u}, {url: v, duration: 60}]}" Demo.w0 in
  map fst (registrations (trace r)) `sublist_of` lookups (trace r).
Proof.
  intros r.
  refine (proj2 (registrations_match_document (B := Demo.backend)
                   "{Alice: [{url: a}], Dave: [{url: u}, {url: v, duration: 60}]}"
                   _ Demo.w0 _)).
  reflexivity.
Defined.

Lemma personas_in_document_order_witness :
  map YStr (lookups (trace (make_voices (B := Demo.backend)
                              "{Alice: [{url: a}], Dave: [{url: u}, {url: v, duration: 60}]}"
                              Demo.w0)))
  = [YStr "Alice"; YStr "Dave"].
Proof.
  pose proof (personas_in_document_order (B := Demo.backend)
                "{Alice: [{url: a}], Dave: [{url: u}, {url: v, duration: 60}]}"
                _ Demo.w0 eq_refl) as [_ H].
  destruct H as [H _]; [vm_compute; reflexivity|].
  exact H.
Defined.

Lemma malformed_video_blocks_registration_witness :
  let r := make_voices (B := backend_loading (Ok broken_registry)) "" Demo.w0 in
  (exists e, outcome r = Raise e)
  /\ registrations (trace r) = []
  /\ lookups (trace r) = ["Dave"]
  /\ length (extractions (trace r)) < 2.
Proof.
  intros r.
  apply (malformed_video_blocks_registration (B := backend_loading (Ok broken_registry))
           "" "Dave" [YDict [(YStr "url", YStr "u")]; YStr "oops"] [] Demo.w0 Demo.w0).
  - reflexivity.
  - reflexivity.
  - apply Exists_cons_tl, Exists_cons_hd. intros items H. discriminate H.
Defined.


Lemma aborted_transcript_ends_turn_witness :
  let r := conversation (B := Demo.backend) Demo.NAMES3 [] ["Alice"; "Bob"; "Carol"]
             "Alice" tt "gpt-3.5-turbo" 75%Z 1%Z 10%Z 48000%Z 1%Z
             (Demo.replying "Alice:one:two") in
  outcome r = Raise (ValueError "too many values to unpack (expected 2)")
  /\ final r = Demo.replying "Alice:one:two"
  /\ requests (trace r) = []
  /\ decoded (trace r) = []
  /\ played (trace r) = []
  /\ raised (trace r) = [].
Proof.
  intros r.
  apply (aborted_transcript_ends_turn (B := Demo.backend) Demo.NAMES3 []
           ["Alice"; "Bob"; "Carol"] "Alice" tt "gpt-3.5-turbo"
           75%Z 1%Z 10%Z 48000%Z 1%Z
           (Demo.replying "Alice:one:two") (Demo.replying "Alice:one:two")
           (Demo.replying "Alice:one:two") (Demo.replying "Alice:one:two")
           Demo.speakers3 (flat_map setup_calls ["Alice"; "Bob"; "Carol"])
           "Hi all" "Alice:one:two").
  - reflexivity.
  - vm_compute. reflexivity.
  - reflexivity.
  - reflexivity.
  - vm_compute. reflexivity.
Defined.
